(** * PhishBlocker browser extension: scan cache, fail-open scanning,
      recent-scans list and daily statistics

    Shallow embedding of the JavaScript of the repository:
    - the background script of the classic extension (scanURL, hashURL,
      the scanCache Map, the onBeforeNavigate listener);
    - the background service worker of the React extension (scanUrl,
      updateStats, the onCommitted listener);
    - the popup's handleScan and the dashboard's addToRecentScans.

    The connection pool and the batch processor of the Python back end
    are not part of the sources at hand; they are modelled from the
    specification in the last two modules. *)

From Stdlib Require Import ZArith List String Ascii Bool Lia QArith.
From Stdlib Require Import Permutation Sorted.
Import ListNotations.

Local Open Scope string_scope.
Local Open Scope list_scope.
Local Open Scope Z_scope.

Set Implicit Arguments.

(* ================================================================== *)
(** ** JavaScript [Map]: an insertion-ordered association list          *)
(* ================================================================== *)

(** A [Map] keeps one entry per key and iterates in insertion order;
    [set] on a resident key replaces the value in place and keeps the
    key's position.  The representation invariant is [NoDup (keys m)]. *)
Module JsMap.
Section Defs.
Variable V : Type.

Definition t := list (string * V).

Definition empty : t := [].

Definition keys (m : t) : list string := map fst m.

Definition size (m : t) : nat := List.length m.

Fixpoint get (k : string) (m : t) : option V :=
  match m with
  | [] => None
  | (k', v) :: m' => if String.eqb k k' then Some v else get k m'
  end.

Definition has (k : string) (m : t) : bool :=
  match get k m with Some _ => true | None => false end.

Fixpoint set (k : string) (v : V) (m : t) : t :=
  match m with
  | [] => [(k, v)]
  | (k', v') :: m' =>
      if String.eqb k k' then (k, v) :: m' else (k', v') :: set k v m'
  end.

Definition delete (k : string) (m : t) : t :=
  filter (fun e => negb (String.eqb k (fst e))) m.

(** [Array.from(m.entries())] *)
Definition entries (m : t) : list (string * V) := m.

(** Number of entries stored under [k]. *)
Definition count (k : string) (m : t) : nat :=
  List.length (filter (fun e => String.eqb k (fst e)) m).
End Defs.
End JsMap.

(* ================================================================== *)
(** ** [Array.prototype.sort] with a comparator                         *)
(* ================================================================== *)

(** The sort of the engine is stable: elements the comparator ranks
    equal keep their relative order.  A stable insertion sort computes
    the same array for a comparator that is a total preorder. *)
Section ArraySort.
Variable A : Type.
Variable cmp : A -> A -> Z.

Fixpoint sort_insert (x : A) (l : list A) : list A :=
  match l with
  | [] => [x]
  | y :: l' => if cmp x y <=? 0 then x :: l else y :: sort_insert x l'
  end.

Fixpoint array_sort (l : list A) : list A :=
  match l with
  | [] => []
  | x :: l' => sort_insert x (array_sort l')
  end.
End ArraySort.

(** Order of two elements by a numeric field. *)
Definition field_le {A} (field : A -> Z) (a b : A) : Prop :=
  field a <= field b.

(* ================================================================== *)
(** ** Exceptions and mutable state                                     *)
(* ================================================================== *)

Inductive JsError : Type :=
| NetworkFailure              (* fetch rejects *)
| HttpError (status : Z)      (* new Error(`HTTP ${status}`) *)
| ScanFailed                  (* new Error('Scan failed') *)
| JsonParseError              (* response.json() rejects *)
| TypeError.                  (* property read on undefined *)

Inductive Outcome (A : Type) : Type :=
| Return (a : A)
| Throw (e : JsError).
Arguments Return {A} a.
Arguments Throw {A} e.

(** Computations over a mutable store [S] that may throw.  A mutation
    made before a throw stays in the store, as in JavaScript. *)
Definition Eff (S A : Type) : Type := S -> S * Outcome A.

Definition ret {S A} (a : A) : Eff S A := fun s => (s, Return a).

Definition throw {S A} (e : JsError) : Eff S A := fun s => (s, Throw e).

Definition bind {S A B} (m : Eff S A) (f : A -> Eff S B) : Eff S B :=
  fun s => match m s with
           | (s', Return a) => f a s'
           | (s', Throw e) => (s', Throw e)
           end.

Definition try_catch {S A} (body : Eff S A) (handler : JsError -> Eff S A)
  : Eff S A :=
  fun s => match body s with
           | (s', Return a) => (s', Return a)
           | (s', Throw e) => handler e s'
           end.

Definition modify {S} (f : S -> S) : Eff S unit := fun s => (f s, Return tt).

Declare Scope eff_scope.
Delimit Scope eff_scope with eff.
Notation "x <- m ;; k" := (bind m (fun x => k))
  (at level 61, m at next level, right associativity) : eff_scope.
Notation "m ;; k" := (bind m (fun _ => k))
  (at level 61, right associativity) : eff_scope.

(* ================================================================== *)
(** ** Scan results and the back end                                    *)
(* ================================================================== *)

(** The JSON object of a scan.  [url] is absent from the fallback
    object of the React extension, hence the option. *)
Record ScanResult : Type := mkScanResult {
  url : option string;
  is_phishing : bool;
  confidence : Q;
  threat_level : string;
  risk_factors : list string
}.

(** What one [fetch] of [/scan] does, as seen by the caller. *)
Inductive JsonOutcome : Type :=
| JsonValue (r : ScanResult)
| JsonInvalid.

Inductive FetchOutcome : Type :=
| FetchRejects
| FetchResponds (ok : bool) (status : Z) (body : JsonOutcome).

(** The [Response] of a fetch that resolved. *)
Record Response : Type := mkResponse {
  ok : bool;
  status : Z;
  json_body : JsonOutcome
}.

Definition fetch {S} (f : FetchOutcome) : Eff S Response :=
  match f with
  | FetchRejects => throw NetworkFailure
  | FetchResponds o st body => ret (mkResponse o st body)
  end.

Definition json {S} (r : Response) : Eff S ScanResult :=
  match json_body r with
  | JsonValue v => ret v
  | JsonInvalid => throw JsonParseError
  end.

(** [Array.prototype.unshift] and [Array.prototype.slice(0, n)]. *)
Definition unshift {A} (x : A) (l : list A) : list A := x :: l.

Definition slice0 {A} (n : nat) (l : list A) : list A := firstn n l.

(** The back end is unavailable when the request throws, answers with
    a non-OK status, or answers with a body that is not JSON. *)
Definition backend_fails (f : FetchOutcome) : Prop :=
  match f with
  | FetchRejects => True
  | FetchResponds ok _ body => ok = false \/ body = JsonInvalid
  end.

(** The request throws or returns a non-OK status. *)
Definition request_fails (f : FetchOutcome) : Prop :=
  match f with
  | FetchRejects => True
  | FetchResponds ok _ _ => ok = false
  end.

(* ================================================================== *)
(** ** Background script of the classic extension                       *)
(* ================================================================== *)

Module Background.

(** *** hashURL *)

(** [ToInt32]: reduction modulo 2^32 into the signed range. *)
Definition toInt32 (x : Z) : Z :=
  (x + 2147483648) mod 4294967296 - 2147483648.

Definition digit36 (d : Z) : ascii :=
  match String.get (Z.to_nat d) "0123456789abcdefghijklmnopqrstuvwxyz" with
  | Some c => c
  | None => "0"%char
  end.

(** Base-36 digits of a non-negative integer, most significant first.
    Seven digits cover every 32-bit magnitude (36^6 > 2^31). *)
Fixpoint digits36 (fuel : nat) (n : Z) (acc : string) : string :=
  match fuel with
  | O => acc
  | S fuel' =>
      let acc' := String (digit36 (n mod 36)) acc in
      if n / 36 =? 0 then acc' else digits36 fuel' (n / 36) acc'
  end.

(** [Number.prototype.toString(36)] on an integer. *)
Definition toString36 (n : Z) : string :=
  if n <? 0 then String "-"%char (digits36 7 (- n) "")
  else digits36 7 n "".

(** [url.charCodeAt(i)]; a character of the Rocq string stands for one
    code unit of the URL. *)
Definition charCode (c : ascii) : Z := Z.of_nat (nat_of_ascii c).

Fixpoint hashLoop (chars : string) (hash : Z) : Z :=
  match chars with
  | EmptyString => hash
  | String c rest =>
      let char := charCode c in
      let hash1 := (toInt32 (Z.shiftl hash 5) - hash) + char in
      hashLoop rest (toInt32 hash1)       (* hash = hash & hash *)
  end.

Definition hashURL (url : string) : string := toString36 (hashLoop url 0).

(** *** Extension state *)

Record CacheEntry : Type := mkEntry {
  result : ScanResult;
  timestamp : Z                 (* Date.now() at the time of the set *)
}.

Definition Cache : Type := JsMap.t CacheEntry.

Record UserSettings : Type := mkSettings {
  blockPhishing : bool;
  showWarnings : bool;
  autoScan : bool;
  threatLevel : string
}.

(** What the outside world does during one call of scanURL: the two
    clock readings and the answer of the back end. *)
Record World : Type := mkWorld {
  now_lookup : Z;               (* Date.now() of the freshness test *)
  backend : FetchOutcome;
  now_store : Z                 (* Date.now() of the cache write *)
}.

(** The object returned when the API fails. *)
Definition safeResult (u : string) : ScanResult :=
  {| url := Some u;
     is_phishing := false;
     confidence := 0%Q;
     threat_level := "Unknown";
     risk_factors := [] |}.

(** Comparator of the eviction sort: [a[1].timestamp - b[1].timestamp]. *)
Definition byTimestamp (a b : string * CacheEntry) : Z :=
  timestamp (snd a) - timestamp (snd b).

Definition timestamp_le : string * CacheEntry -> string * CacheEntry -> Prop :=
  field_le (fun e => timestamp (snd e)).

Section ScanCache.
(** The three literals of scanURL: the freshness window in
    milliseconds, the size above which old entries are cleared, and the
    number of entries cleared. *)
Variable TTL : Z.
Variable MAX_SIZE : nat.
Variable EVICT : nat.

(** The cache test at the head of scanURL: the cached result when the
    key is resident and younger than the window. *)
Definition cachedResult (now : Z) (cacheKey : string) (scanCache : Cache)
  : option ScanResult :=
  if JsMap.has cacheKey scanCache then
    match JsMap.get cacheKey scanCache with
    | Some cached =>
        if now - timestamp cached <? TTL then Some (result cached) else None
    | None => None
    end
  else None.

(** [for (i = 0; i < n; i++) scanCache.delete(entries[i][0])], started
    at the front of [entries]; reading past the end of the array throws. *)
Fixpoint deleteOldest (n : nat) (entries : list (string * CacheEntry))
  : Eff Cache unit :=
  match n with
  | O => ret tt
  | S n' =>
      match entries with
      | [] => throw TypeError
      | e :: rest =>
          (modify (JsMap.delete (fst e)) ;; deleteOldest n' rest)%eff
      end
  end.

(** "Clear old cache entries". *)
Definition clearOldEntries : Eff Cache unit :=
  fun scanCache =>
    if (MAX_SIZE <? JsMap.size scanCache)%nat then
      let entries := array_sort byTimestamp (JsMap.entries scanCache) in
      deleteOldest EVICT entries scanCache
    else (scanCache, Return tt).

(** The synchronous tail of scanURL: cache the result, clear old
    entries. *)
Definition storeResult (cacheKey : string) (entry : CacheEntry)
  : Eff Cache unit :=
  (modify (JsMap.set cacheKey entry) ;; clearOldEntries)%eff.

(** The body of the try block. *)
Definition requestAndStore (w : World) (u cacheKey : string)
  : Eff Cache ScanResult :=
  (response <- fetch (backend w) ;;
   if negb (ok response) then throw (HttpError (status response))
   else
     r <- json response ;;
     storeResult cacheKey (mkEntry r (now_store w)) ;;
     ret r)%eff.

Definition scanURL_with (w : World) (u : string) : Eff Cache ScanResult :=
  fun scanCache =>
    let cacheKey := hashURL u in
    match cachedResult (now_lookup w) cacheKey scanCache with
    | Some r => (scanCache, Return r)
    | None =>
        try_catch (requestAndStore w u cacheKey)
                  (fun _ => ret (safeResult u)) scanCache
    end.
End ScanCache.

(** scanURL with the literals of the source: a 5 minute window, old
    entries cleared above 1000 entries, 500 at a time. *)
Definition scanURL : World -> string -> Eff Cache ScanResult :=
  scanURL_with 300000 1000 500.

(** The cache after a sequence of scans.  scanURL reads the cache before
    its first await and writes it in one synchronous stretch after the
    last one, so whatever the interleaving of concurrent calls the cache
    goes through a sequence of stores; the clock readings of a [World]
    are unconstrained, so each such store is also the store of a scan
    that found its key missing or stale. *)
Fixpoint scanAll (scans : list (World * string)) (scanCache : Cache) : Cache :=
  match scans with
  | [] => scanCache
  | (w, u) :: rest => scanAll rest (fst (scanURL w u scanCache))
  end.

Fixpoint scanAll_with (TTL : Z) (MAX_SIZE EVICT : nat)
    (scans : list (World * string)) (scanCache : Cache) : Cache :=
  match scans with
  | [] => scanCache
  | (w, u) :: rest =>
      scanAll_with TTL MAX_SIZE EVICT rest
        (fst (scanURL_with TTL MAX_SIZE EVICT w u scanCache))
  end.

(** *** The onBeforeNavigate listener *)

Inductive ChromeCall : Type :=
| TabsCreateWarning (blocked_url threat : string)
| NotificationsCreate (site : string)
| SetBadgeText (text : string).

Definition lowerChar (c : ascii) : ascii :=
  let n := nat_of_ascii c in
  if ((65 <=? n) && (n <=? 90))%nat then ascii_of_nat (n + 32) else c.

Fixpoint toLowerCase (s : string) : string :=
  match s with
  | EmptyString => EmptyString
  | String c rest => String (lowerChar c) (toLowerCase rest)
  end.

Definition updateBadgeForTab (level : string) : ChromeCall :=
  let l := toLowerCase level in
  if String.eqb l "high" then SetBadgeText "!"
  else if String.eqb l "medium" then SetBadgeText "?"
  else SetBadgeText "".

(** The calls made once the scan has returned. *)
Definition reactToScan (userSettings : UserSettings) (u : string)
    (scanResult : ScanResult) : list ChromeCall :=
  (if is_phishing scanResult && blockPhishing userSettings then
     [TabsCreateWarning u (threat_level scanResult)]
   else if is_phishing scanResult && showWarnings userSettings then
     [NotificationsCreate u]
   else [])
  ++ [updateBadgeForTab (threat_level scanResult)].

(** [allowed] is the stored "Proceed Anyway" flag of the tab. *)
Definition onBeforeNavigate (isEnabled : bool) (userSettings : UserSettings)
    (frameId : Z) (allowed : bool) (w : World) (u : string)
    (scanCache : Cache) : Cache * list ChromeCall :=
  if negb isEnabled || negb (frameId =? 0) then (scanCache, [])
  else if allowed then (scanCache, [])
  else
    match scanURL w u scanCache with
    | (c, Return scanResult) => (c, reactToScan userSettings u scanResult)
    | (c, Throw _) => (c, [])          (* console.error('Scan error') *)
    end.

End Background.

(* ================================================================== *)
(** ** Background service worker of the React extension                 *)
(* ================================================================== *)

(** One line of the recent-scans list. *)
Record ScanRecord : Type := mkScanRecord {
  scan_url : string;
  scan_is_phishing : bool;
  scan_threat_level : string;
  scan_confidence : Q;
  scan_timestamp : Z            (* instant of new Date() *)
}.

(** The stored statistics; [lastScan] is null or missing until the
    service worker writes it. *)
Record Stats : Type := mkStats {
  scansToday : Z;
  threatsBlocked : Z;
  lastScan : option Z
}.

Module ServiceWorker.

Record Settings : Type := mkSettings {
  enabled : bool;
  blockPhishing : bool;
  showWarnings : bool
}.

Record LocalStorage : Type := mkLocal {
  lastScanResult : option ScanResult;
  recentScans : option (list ScanRecord);
  stats : option Stats
}.

Inductive ChromeCall : Type :=
| TabsUpdateWarning (u : string)
| NotificationsCreate (domain : string).

(** The object returned "on error". *)
Definition safeResult : ScanResult :=
  {| url := None;
     is_phishing := false;
     confidence := 0%Q;
     threat_level := "Unknown";
     risk_factors := [] |}.

Definition scanUrl (f : FetchOutcome) : Eff unit ScanResult :=
  try_catch
    (response <- fetch f ;;
     if negb (ok response) then throw ScanFailed
     else json response)%eff
    (fun _ => ret safeResult).

(** "Add to recent scans" of the listener. *)
Definition addRecentScan (newScan : ScanRecord)
    (stored : option (list ScanRecord)) : list ScanRecord :=
  let recentScans := match stored with Some l => l | None => [] end in
  let recentScans := unshift newScan recentScans in
  slice0 10 recentScans.

Section Calendar.
(** [Date.prototype.toDateString]: the calendar day of an instant in
    the local time zone. *)
Variable toDateString : Z -> string.

Definition sameDate (lastScanDate : option string) (today : string) : bool :=
  match lastScanDate with
  | Some d => String.eqb d today
  | None => false
  end.

(** [now_today] and [now_stamp] are the two readings of the clock. *)
Definition updateStats (now_today now_stamp : Z) (r : ScanResult)
    (stored : option Stats) : Stats :=
  let currentStats :=
    match stored with
    | Some s => s
    | None => mkStats 0 0 None
    end in
  let today := toDateString now_today in
  let lastScanDate :=
    match lastScan currentStats with
    | Some t => Some (toDateString t)
    | None => None
    end in
  let scans :=
    if negb (sameDate lastScanDate today) then 0
    else scansToday currentStats in
  let scans := scans + 1 in
  let threats :=
    if is_phishing r then threatsBlocked currentStats + 1
    else threatsBlocked currentStats in
  mkStats scans threats (Some now_stamp).

Definition reactToScan (settings : Settings) (u domain : string)
    (r : ScanResult) : list ChromeCall :=
  if is_phishing r && blockPhishing settings then [TabsUpdateWarning u]
  else if is_phishing r && showWarnings settings then
    [NotificationsCreate domain]
  else [].

(** The three readings of the clock made by one run of the listener. *)
Record Clock : Type := mkClock {
  now_record : Z;
  now_today : Z;
  now_stamp : Z
}.

(** The onCommitted listener; [domain] is the host name of [u]. *)
Definition onCommitted (frameId : Z) (storedSettings : option Settings)
    (whitelist : option (list string)) (u domain : string)
    (f : FetchOutcome) (clock : Clock) (local : LocalStorage)
  : LocalStorage * list ChromeCall :=
  if negb (frameId =? 0) then (local, [])
  else
    let settings :=
      match storedSettings with
      | Some s => s
      | None => mkSettings true true true
      end in
    if negb (enabled settings) then (local, [])
    else if String.prefix "chrome://" u
            || String.prefix "chrome-extension://" u then (local, [])
    else if match whitelist with
            | Some l => existsb (String.eqb domain) l
            | None => false
            end then (local, [])
    else
      match scanUrl f tt with
      | (_, Return r) =>
          let newScan :=
            mkScanRecord u (is_phishing r) (threat_level r) (confidence r)
                         (now_record clock) in
          let local' :=
            {| lastScanResult := Some r;
               recentScans := Some (addRecentScan newScan (recentScans local));
               stats := Some (updateStats (now_today clock) (now_stamp clock)
                                          r (stats local)) |} in
          (local', reactToScan settings u domain r)
      | (_, Throw _) => (local, [])
      end.
End Calendar.

End ServiceWorker.

(** The count of the day as C10 words it: 1 if the stored lastScan fell
    on another calendar day than today, the previous count plus 1
    otherwise. *)
Definition claimedScansToday (toDateString : Z -> string) (now_today : Z)
    (prev : Stats) : Z :=
  match lastScan prev with
  | Some t =>
      if String.eqb (toDateString t) (toDateString now_today) then
        scansToday prev + 1
      else 1
  | None => scansToday prev + 1
  end.

(* ================================================================== *)
(** ** Popup of the React extension                                     *)
(* ================================================================== *)

Module Popup.

(** The React state handleScan reads and writes; every write also goes
    to [chrome.storage.local]. *)
Record State : Type := mkState {
  recentScans : list ScanRecord;
  stats : Stats
}.

(** "Add to recent scans" of handleScan. *)
Definition updatedScans (newScan : ScanRecord)
    (recentScans : list ScanRecord) : list ScanRecord :=
  slice0 10 ([newScan] ++ recentScans).

(** handleScan: nothing happens on an empty input; the response is parsed
    whatever its status; a request or a parse that throws is caught and
    leaves the state as it was ("Failed to scan URL"). *)
Definition handleScan (scanUrl : string) (f : FetchOutcome) (now : Z)
    (st : State) : State :=
  if String.eqb scanUrl "" then st
  else
    match (response <- fetch f ;; json response)%eff tt with
    | (_, Return r) =>
        let newScan :=
          mkScanRecord scanUrl (is_phishing r) (threat_level r)
                       (confidence r) now in
        let newStats :=
          {| scansToday := scansToday (stats st) + 1;
             threatsBlocked :=
               threatsBlocked (stats st) + (if is_phishing r then 1 else 0);
             lastScan := None |} in
        {| recentScans := updatedScans newScan (recentScans st);
           stats := newStats |}
    | (_, Throw _) => st
    end.

End Popup.

(* ================================================================== *)
(** ** Dashboard                                                        *)
(* ================================================================== *)

Module Dashboard.

(** [this.recentScans] after [addToRecentScans(result)]; the argument is
    the record [{...result, timestamp: new Date()}]. *)
Definition addToRecentScans (scan : ScanRecord)
    (recentScans : list ScanRecord) : list ScanRecord :=
  let recentScans := unshift scan recentScans in
  if (10 <? List.length recentScans)%nat then slice0 10 recentScans
  else recentScans.

End Dashboard.

(** *** The recent-scans list under any mix of the three writers *)

Inductive Writer : Type := ByServiceWorker | ByPopup | ByDashboard.

Definition recordScan (wr : Writer) (scan : ScanRecord)
    (stored : list ScanRecord) : list ScanRecord :=
  match wr with
  | ByServiceWorker => ServiceWorker.addRecentScan scan (Some stored)
  | ByPopup => Popup.updatedScans scan stored
  | ByDashboard => Dashboard.addToRecentScans scan stored
  end.

(** The list after the scans of [history], oldest first, when each
    writer starts from the list the one before it left.  The service
    worker does, reading the stored list before every write; the popup
    starts from the list it loaded when it was opened and the dashboard
    from the array of its page, so for them this is the history of one
    writer working alone. *)
Fixpoint recordAll (history : list (Writer * ScanRecord))
    (stored : list ScanRecord) : list ScanRecord :=
  match history with
  | [] => stored
  | (wr, scan) :: rest => recordAll rest (recordScan wr scan stored)
  end.

(* ================================================================== *)
(** ** Connection pool (back end)                                       *)
(* ================================================================== *)

Module ConnectionPool.

(** Modelled from the spec: the connection states of section 3. *)
Inductive ConnState : Type := Idle | CheckedOut | Recycling | Discarded.

(** Modelled from the spec: PooledConnection of section 3. *)
Record PooledConnection : Type := mkConn {
  handle : nat;
  state : ConnState;
  createdAt : Z;
  lastUsedAt : Z
}.

(** Modelled from the spec: Pool of section 3; the live connections
    never exceed maxSize = core + overflow. *)
Record Pool : Type := mkPool {
  coreConnections : nat;
  overflowConnections : nat;
  connections : list PooledConnection
}.






(** Modelled from the spec: the core connections, with handles 0 to n-1. *)
Fixpoint coreHandles (n : nat) (now : Z) : list PooledConnection :=
  match n with
  | O => []
  | S n' => coreHandles n' now ++ [mkConn n' Idle now now]
  end.

(** Modelled from the spec: the pool of database_pool.py, which is not
    among the sources.  Construction creates the core connections, idle;
    the health check and the recycling of section 4.4 are left out (every
    connection is healthy and within its lifetime). *)
Definition create (core overflow : nat) (now : Z) : Pool :=
  mkPool core overflow (coreHandles core now).











End ConnectionPool.

(* ================================================================== *)
(** ** Batch processor (back end)                                       *)
(* ================================================================== *)

Module BatchProcessor.
Section Batch.
(** Modelled from the spec: BatchRecord of section 3, an opaque write
    payload. *)
Variable Record_ : Type.

(** Modelled from the spec: the processor with its active buffer. *)
Record Processor : Type := mkProcessor {
  sizeThreshold : nat;
  items : list Record_;               (* the active buffer *)
  flushed : list (list Record_);      (* the buffers swapped out, in order *)
  autoFlushes : nat
}.

(** Modelled from the spec: a processor with an empty buffer. *)
Definition create (threshold : nat) : Processor :=
  mkProcessor threshold [] [] 0.

(** Modelled from the spec: the flush of section 4.5 swaps the active
    buffer for a fresh one and hands the old one to the bulk write; the
    write itself is not modelled. *)
Definition swapOut (p : Processor) : Processor :=
  mkProcessor (sizeThreshold p) [] (flushed p ++ [items p]) (autoFlushes p).

(** Modelled from the spec: [add(record)] of the BatchProcessor of
    database_pool.py, which is not among the sources.  The record is
    appended to the active buffer; when the size of the buffer reaches
    sizeThreshold the buffer is flushed before add returns. *)
Definition add (r : Record_) (p : Processor) : Processor :=
  let p1 := mkProcessor (sizeThreshold p) (items p ++ [r]) (flushed p)
                        (autoFlushes p) in
  if (sizeThreshold p1 <=? List.length (items p1))%nat then
    let p2 := swapOut p1 in
    mkProcessor (sizeThreshold p2) (items p2) (flushed p2)
                (S (autoFlushes p2))
  else p1.

(** Modelled from the spec: a sequence of adds. *)
Fixpoint addAll (rs : list Record_) (p : Processor) : Processor :=
  match rs with
  | [] => p
  | r :: rest => addAll rest (add r p)
  end.

(** Modelled from the spec: a processor between two calls: the active buffer is below the
    threshold [T], every buffer swapped out was full, and each of them
    was counted once. *)
Definition accumulating (T : nat) (p : Processor) : Prop :=
  sizeThreshold p = T /\
  (List.length (items p) < T)%nat /\
  Forall (fun b => List.length b = T) (flushed p) /\
  autoFlushes p = List.length (flushed p).
End Batch.
End BatchProcessor.

(* ================================================================== *)
(** ** Concrete runs                                                    *)
(* ================================================================== *)

Module Scenario.
Import Background.

(** A verdict of the back end, told apart by its confidence. *)
Definition verdict (n : Z) : ScanResult :=
  mkScanResult None false (inject_Z n) "Low" [].

(** At instant [t] the back end answers with [verdict n]. *)
Definition answers (t n : Z) : World :=
  mkWorld t (FetchResponds true 200 (JsonValue (verdict n))) t.

(** At instant [t] the back end is down. *)
Definition outage (t : Z) : World := mkWorld t FetchRejects t.

(** [set(a,1); set(b,2); get(a); set(c,3)].  The read of [a] happens
    while the back end is down, so its answer can only come from the
    cache. *)
Definition lruTrace : list (World * string) :=
  [(answers 1 1, "a"); (answers 2 2, "b"); (outage 3, "a"); (answers 4 3, "c")].

Definition digit (n : nat) : ascii := ascii_of_nat (48 + n mod 10).

Definition site (i : nat) : string :=
  "https://site"
  ++ String (digit (i / 1000)) (String (digit (i / 100))
       (String (digit (i / 10)) (String (digit i) ".example/"))).

(** A thousand sites scanned one after the other, the first one read
    again, then one more site scanned. *)
Definition fullTrace : list (World * string) :=
  map (fun i => (answers (Z.of_nat i) (Z.of_nat i), site i)) (seq 1 1000)
  ++ [(outage 1001, site 1); (answers 1002 1001, site 1001)].

(** A calendar for the concrete runs: the day of an instant is its UTC
    day number, written in base 36. *)
Definition utcDateString (t : Z) : string := toString36 (t / 86400000).

(** The statistics the popup leaves in storage after a manual scan made
    when the stored count was 4, with 2 threats, and a last scan at
    instant 1000. *)
Definition statsAfterPopupScan : Stats :=
  Popup.stats
    (Popup.handleScan "http://example.com/"
       (FetchResponds true 200 (JsonValue (verdict 0))) 2000
       (Popup.mkState [] (mkStats 4 2 (Some 1000)))).

End Scenario.

(* ================================================================== *)
(** ** Reading a cache key back                                         *)
(* ================================================================== *)

Module KeyDecoding.
Import Background.

(** The value of a base-36 digit. *)
Definition digitValue (c : ascii) : Z :=
  match String.index 0 (String c "") "0123456789abcdefghijklmnopqrstuvwxyz" with
  | Some i => Z.of_nat i
  | None => 0
  end.

Fixpoint parseDigits (s : string) (v : Z) : Z :=
  match s with
  | EmptyString => v
  | String c rest => parseDigits rest (36 * v + digitValue c)
  end.

(** The integer a key stands for, as [parseInt(key, 36)] reads it. *)
Definition parseInt36 (s : string) : Z :=
  match s with
  | String "-"%char rest => - parseDigits rest 0
  | _ => parseDigits s 0
  end.

(** The signed 32-bit integers. *)
Definition int32 (x : Z) : Prop := -2147483648 <= x < 2147483648.

(** A string that begins with a base-36 digit. *)
Definition startsWithDigit (s : string) : Prop :=
  exists d rest, s = String (digit36 d) rest.

End KeyDecoding.

(* ================================================================== *)
(** ** Background script: messages, stored settings, "Proceed Anyway"   *)
(* ================================================================== *)

Module BackgroundScript.
Import Background.

(** The globals of the script. *)
Record State : Type := mkState {
  isEnabled : bool;
  userSettings : UserSettings;
  scanCache : Cache
}.

Definition initialState : State :=
  mkState true (mkSettings true true true "medium") (JsMap.empty CacheEntry).

(** An object holding some of the keys of the settings: the
    [userSettings] of a request or of the storage. *)
Record SettingsPatch : Type := mkPatch {
  patch_blockPhishing : option bool;
  patch_showWarnings : option bool;
  patch_autoScan : option bool;
  patch_threatLevel : option string
}.

Definition orElse {A} (o : option A) (d : A) : A :=
  match o with Some a => a | None => d end.

(** [{ ...userSettings, ...patch }]; spreading [undefined] adds nothing. *)
Definition spread (base : UserSettings) (patch : option SettingsPatch)
  : UserSettings :=
  match patch with
  | None => base
  | Some p =>
      mkSettings (orElse (patch_blockPhishing p) (blockPhishing base))
                 (orElse (patch_showWarnings p) (showWarnings base))
                 (orElse (patch_autoScan p) (autoScan base))
                 (orElse (patch_threatLevel p) (threatLevel base))
  end.

(** The settings as the object written to the storage. *)
Definition asObject (s : UserSettings) : SettingsPatch :=
  mkPatch (Some (blockPhishing s)) (Some (showWarnings s))
          (Some (autoScan s)) (Some (threatLevel s)).

(** [chrome.storage.sync] under the keys isEnabled and userSettings. *)
Record SyncStorage : Type := mkSync {
  stored_isEnabled : option bool;
  stored_userSettings : option SettingsPatch
}.

(** The onInstalled listener: load the stored settings. *)
Definition onInstalled (stored : SyncStorage) (st : State) : State :=
  mkState (orElse (stored_isEnabled stored) (isEnabled st))
          (spread (userSettings st) (stored_userSettings stored))
          (scanCache st).

Inductive Request : Type :=
| scan_url (u : string)
| get_settings
| update_settings (newEnabled : option bool) (patch : option SettingsPatch)
| report_phishing (u : string)
| other_action (action : string).

(** What the POST to /feedback does: the handler parses the body whatever
    the status. *)
Inductive FeedbackOutcome : Type :=
| FeedbackRejects
| FeedbackResponds (ok : bool) (parses : bool).

Inductive Reply : Type :=
| ScanReply (r : ScanResult)
| SettingsReply (enabled : bool) (settings : UserSettings)
| SuccessReply                          (* { success: true } *)
| ReportReply (success : bool)
| UnknownAction                         (* { error: 'Unknown action' } *)
| NoReply.

(** updateBadge: the badge reads OFF while protection is disabled. *)
Definition updateBadge (enabled : bool) : ChromeCall :=
  SetBadgeText (if enabled then "" else "OFF").

(** The onMessage listener: the new globals and storage, the reply, and
    the calls made on the badge. *)
Definition onMessage (w : World) (fb : FeedbackOutcome) (request : Request)
    (st : State) (sync : SyncStorage)
  : State * SyncStorage * Reply * list ChromeCall :=
  match request with
  | scan_url u =>
      match scanURL w u (scanCache st) with
      | (c, Return r) =>
          (mkState (isEnabled st) (userSettings st) c, sync, ScanReply r, [])
      | (c, Throw _) =>
          (mkState (isEnabled st) (userSettings st) c, sync, NoReply, [])
      end
  | get_settings =>
      (st, sync, SettingsReply (isEnabled st) (userSettings st), [])
  | update_settings newEnabled patch =>
      let enabled := orElse newEnabled (isEnabled st) in
      let settings := spread (userSettings st) patch in
      (mkState enabled settings (scanCache st),
       mkSync (Some enabled) (Some (asObject settings)),
       SuccessReply,
       [updateBadge enabled])
  | report_phishing _ =>
      (st, sync,
       match fb with
       | FeedbackRejects => ReportReply false
       | FeedbackResponds _ parses => ReportReply parses
       end,
       [])
  | other_action _ => (st, sync, UnknownAction, [])
  end.

Definition stateAfter (x : State * SyncStorage * Reply * list ChromeCall)
  : State := fst (fst (fst x)).

Definition storageAfter (x : State * SyncStorage * Reply * list ChromeCall)
  : SyncStorage := snd (fst (fst x)).

Definition replyOf (x : State * SyncStorage * Reply * list ChromeCall)
  : Reply := snd (fst x).

Definition callsOf (x : State * SyncStorage * Reply * list ChromeCall)
  : list ChromeCall := snd x.

(** The onBeforeNavigate listener with the storage it reads: [proceed]
    lists the tabs whose key [proceed_<tabId>] is set in
    [chrome.storage.local].  The flag is read, and removed when set, only
    after the guard on isEnabled and frameId. *)
Definition onBeforeNavigateStored (st : State) (proceed : list Z)
    (frameId tabId : Z) (w : World) (u : string)
  : State * list Z * list ChromeCall :=
  if negb (isEnabled st) || negb (frameId =? 0) then (st, proceed, [])
  else
    let allowed := existsb (Z.eqb tabId) proceed in
    let proceed' :=
      if allowed then filter (fun t => negb (t =? tabId)) proceed
      else proceed in
    match onBeforeNavigate (isEnabled st) (userSettings st) frameId allowed
                           w u (scanCache st) with
    | (c, calls) =>
        (mkState (isEnabled st) (userSettings st) c, proceed', calls)
    end.

End BackgroundScript.

(* ================================================================== *)
(** ** Warning page of the classic extension                            *)
(* ================================================================== *)

Module WarningScript.

(** The query parameters after parsing; [blockedTabId] is [None] when
    [Number(...)] is NaN. *)
Record Params : Type := mkParams {
  blockedUrl : string;
  threatLevel : string;
  blockedTabId : option Z
}.

Inductive TabCall : Type :=
| TabsRemove (tab : Z)
| TabsUpdate (tab : Z) (u : string)
| CloseWarningTab.

(** The "Proceed Anyway" button: set the flag of the blocked tab, reload
    it with the blocked URL, close the warning tab. *)
Definition proceedAnyway (p : Params) (proceed : list Z)
  : list Z * list TabCall :=
  match blockedTabId p with
  | Some tab =>
      (tab :: filter (fun t => negb (t =? tab)) proceed,
       [TabsUpdate tab (blockedUrl p); CloseWarningTab])
  | None => (proceed, [])
  end.

(** The "Go Back" button: close the blocked tab, then the warning tab. *)
Definition goBack (p : Params) : list TabCall :=
  match blockedTabId p with
  | Some tab => [TabsRemove tab; CloseWarningTab]
  | None => []
  end.

End WarningScript.

(* ================================================================== *)
(** ** Popup of the classic extension                                   *)
(* ================================================================== *)

Module PopupScript.
Import Background.

Inductive Icon : Type := IconSafe | IconAlarm | IconWarning.

(** What the popup reads of the value [chrome.runtime.sendMessage]
    resolves to for the [scan_url] message.  Nothing in the popup checks
    its shape: it may be falsy ([undefined], [null], [false], 0), a
    string, or any other value, of which showScanResult reads whether
    [is_phishing] is truthy and the property [threat_level];
    [threatLevel] is [None] when that property is absent or is not a
    string. *)
Inductive Answer : Type :=
| Falsy
| Text (s : string)
| Value (isPhishing : bool) (threatLevel : option string).

(** What showScanResult puts in the result box: a text with the class
    [scan-result <type>], or a verdict with its class, icon and title
    and the threat level printed below them. *)
Inductive Display : Type :=
| Message (text type : string)
| Verdict (className : string) (icon : Icon) (title : string)
          (threatLevel : string).

(** showScanResult on a string. *)
Definition showMessage (text : string) (type : option string) : Display :=
  Message text (match type with
                | Some t => if String.eqb t "" then "warning" else t
                | None => "warning"
                end).

(** showScanResult on a value that is not a string:
    [result.threat_level.toLowerCase()] is evaluated first and throws a
    TypeError when [threat_level] is not a string, before anything is
    written to the result box. *)
Definition showScanResult (isPhishing : bool) (level : option string)
  : Outcome Display :=
  match level with
  | None => Throw TypeError
  | Some level =>
      let threatLevel := toLowerCase level in
      Return
        (if isPhishing then
           if String.eqb threatLevel "high" then
             Verdict "threat" IconAlarm "High threat detected!" level
           else
             Verdict "warning" IconWarning "Potential threat detected" level
         else Verdict "safe" IconSafe "Page appears safe" level)
  end.

(** scanCurrentPage; [answer] is what [chrome.runtime.sendMessage] does
    for the [scan_url] message: it resolves to a value or rejects, and
    [message] is the [error.message] of what the catch block receives. *)
Definition scanCurrentPage (message : JsError -> string)
    (currentTabUrl : option string)
    (answer : string -> Outcome Answer) : Display :=
  match currentTabUrl with
  | None => showMessage "No page to scan" (Some "warning")
  | Some u =>
      if String.eqb u "" then showMessage "No page to scan" (Some "warning")
      else
        let attempt : Outcome Display :=
          match answer u with
          | Return Falsy =>
              Return (showMessage "Scan failed - API not available"
                                  (Some "warning"))
          | Return (Text s) =>
              if String.eqb s "" then
                Return (showMessage "Scan failed - API not available"
                                    (Some "warning"))
              else Return (showMessage s None)
          | Return (Value isPhishing level) => showScanResult isPhishing level
          | Throw e => Throw e
          end in
        match attempt with
        | Return shown => shown
        | Throw e =>
            showMessage ("Scan failed - " ++ message e)%string (Some "warning")
        end
  end.



End PopupScript.

(* ================================================================== *)
(** ** Popup of the React extension: settings, whitelist, clearing      *)
(* ================================================================== *)

Module PopupActions.
Import ServiceWorker.

Inductive SettingKey : Type := KeyEnabled | KeyBlockPhishing | KeyShowWarnings.

Definition readSetting (key : SettingKey) (settings : Settings) : bool :=
  match key with
  | KeyEnabled => enabled settings
  | KeyBlockPhishing => blockPhishing settings
  | KeyShowWarnings => showWarnings settings
  end.

(** updateSettings: [{ ...settings, [key]: value }]. *)
Definition updateSettings (key : SettingKey) (value : bool)
    (settings : Settings) : Settings :=
  match key with
  | KeyEnabled => mkSettings value (blockPhishing settings) (showWarnings settings)
  | KeyBlockPhishing => mkSettings (enabled settings) value (showWarnings settings)
  | KeyShowWarnings => mkSettings (enabled settings) (blockPhishing settings) value
  end.

(** The click on a setting: [updateSettings(key, !settings[key])]. *)
Definition toggleSetting (key : SettingKey) (settings : Settings) : Settings :=
  updateSettings key (negb (readSetting key settings)) settings.

(** [whitelist.includes(domain)] *)
Definition includes (domain : string) (whitelist : list string) : bool :=
  existsb (String.eqb domain) whitelist.

(** addToWhitelist: the whitelist written to the state and the storage. *)
Definition addToWhitelist (newDomain : string) (whitelist : list string)
  : list string :=
  if negb (String.eqb newDomain "") && negb (includes newDomain whitelist)
  then whitelist ++ [newDomain]
  else whitelist.

Definition removeFromWhitelist (domain : string) (whitelist : list string)
  : list string :=
  filter (fun d => negb (String.eqb d domain)) whitelist.

(** clearHistory: the recent scans of the state and of the storage. *)
Definition clearHistory (st : Popup.State) (local : LocalStorage)
  : Popup.State * LocalStorage :=
  (Popup.mkState [] (Popup.stats st),
   mkLocal (lastScanResult local) (Some []) (stats local)).

(** clearCache: [chrome.storage.local.clear()] and the state reset. *)
Definition clearCache (st : Popup.State) (local : LocalStorage)
  : Popup.State * LocalStorage :=
  (Popup.mkState [] (mkStats 0 0 None), mkLocal None None None).

(** The "Safe Sites" tile of the statistics tab. *)
Definition safeSites (s : Stats) : Z := scansToday s - threatsBlocked s.

End PopupActions.

Module WhitelistManager.
Section Normalise.
(** [String.prototype.trim] and [String.prototype.toLowerCase]. *)
Variable trim : string -> string.
Variable toLowerCase : string -> string.

(** addDomain: the whitelist written to the state and the storage. *)
Definition addDomain (newDomain : string) (whitelist : list string)
  : list string :=
  if String.eqb (trim newDomain) "" then whitelist
  else
    let domain := toLowerCase (trim newDomain) in
    if negb (PopupActions.includes domain whitelist) then whitelist ++ [domain]
    else whitelist.
End Normalise.

Definition removeDomain (domain : string) (whitelist : list string)
  : list string :=
  filter (fun d => negb (String.eqb d domain)) whitelist.

End WhitelistManager.

(* ================================================================== *)
(** ** History list of the React popup                                  *)
(* ================================================================== *)

Module RecentScansHistory.

(** The scans shown for a stored list: "Show last 5 scans". *)
Definition shown (stored : option (list ScanRecord)) : list ScanRecord :=
  match stored with
  | Some l => slice0 5 l
  | None => []
  end.

(** handleStorageChange, the listener on [chrome.storage.onChanged]:
    [change] is [changes.recentScans], absent when the key did not
    change; its new value is absent when the key was removed. *)
Definition handleStorageChange (change : option (option (list ScanRecord)))
    (scans : list ScanRecord) : list ScanRecord :=
  match change with
  | Some (Some newValue) => slice0 5 newValue
  | Some None => []
  | None => scans
  end.

(** The label of formatTime: [`${n}s ago`], [`${n}m ago`], [`${n}h ago`]
    or the locale date of the instant. *)
Inductive TimeLabel : Type :=
| SecondsAgo (n : Z)
| MinutesAgo (n : Z)
| HoursAgo (n : Z)
| LocaleDate (instant : Z).

(** formatTime; [now] is the instant of [new Date()], [Math.floor] of a
    quotient is the floored division. *)
Definition formatTime (now timestamp : Z) : TimeLabel :=
  let diff := (now - timestamp) / 1000 in
  if diff <? 60 then SecondsAgo diff
  else if diff <? 3600 then MinutesAgo (diff / 60)
  else if diff <? 86400 then HoursAgo (diff / 3600)
  else LocaleDate timestamp.

End RecentScansHistory.

(* ================================================================== *)
(** ** Current page scan of the React popup                             *)
(* ================================================================== *)

Module CurrentPageScan.

(** The heading of the result card. *)
Definition heading (r : ScanResult) : string :=
  if is_phishing r then "Threat Detected!" else "Page is Safe".

Definition getThreatColor (level : string) : string :=
  let l := Background.toLowerCase level in
  if String.eqb l "low" then "text-success-600 bg-success-50"
  else if String.eqb l "medium" then "text-warning-600 bg-warning-50"
  else if String.eqb l "high" then "text-danger-600 bg-danger-50"
  else "text-gray-600 bg-gray-50".

(** scanCurrentPage: the result set from the reply of the service worker
    to the [scanUrl] message. *)
Definition scanCurrentPage (f : FetchOutcome) : option ScanResult :=
  match ServiceWorker.scanUrl f tt with
  | (_, Return r) => Some r
  | (_, Throw _) => None
  end.

End CurrentPageScan.

(* ================================================================== *)
(** ** Recent scans table of the dashboard                              *)
(* ================================================================== *)

Module DashboardTable.

(** The text of the URL cell: the URL, cut after 40 characters. *)
Definition urlCell (u : string) : string :=
  if (40 <? String.length u)%nat then (String.substring 0 40 u ++ "...")%string
  else u.

End DashboardTable.

(** The statistics after a sequence of scans handled by the service
    worker; each comes with its two readings of the clock. *)
Fixpoint updateStatsAll (toDateString : Z -> string)
    (scans : list (Z * Z * ScanResult)) (stored : option Stats)
  : option Stats :=
  match scans with
  | [] => stored
  | (now_today, now_stamp, r) :: rest =>
      updateStatsAll toDateString rest
        (Some (ServiceWorker.updateStats toDateString now_today now_stamp r
                 stored))
  end.

(** [stats.stats || { scansToday: 0, threatsBlocked: 0, lastScan: null }] *)
Definition currentStats (stored : option Stats) : Stats :=
  match stored with
  | Some s => s
  | None => mkStats 0 0 None
  end.

(** The count a day starts from: the stored count when the stored
    lastScan falls on that day, 0 otherwise. *)
Definition countOfDay (toDateString : Z -> string) (day : string)
    (stored : option Stats) : Z :=
  match lastScan (currentStats stored) with
  | Some t =>
      if String.eqb (toDateString t) day then scansToday (currentStats stored)
      else 0
  | None => 0
  end.

Definition phishingCount (scans : list (Z * Z * ScanResult)) : Z :=
  Z.of_nat (List.length (filter (fun s => is_phishing (snd s)) scans)).

(** The stored whitelist under the writers of the popup. *)
Inductive WhitelistOp : Type :=
| PopupAdd (newDomain : string)
| PopupRemove (domain : string)
| ManagerAdd (newDomain : string)
| ManagerRemove (domain : string).

Definition applyWhitelistOp (trim toLowerCase : string -> string)
    (op : WhitelistOp) (whitelist : list string) : list string :=
  match op with
  | PopupAdd d => PopupActions.addToWhitelist d whitelist
  | PopupRemove d => PopupActions.removeFromWhitelist d whitelist
  | ManagerAdd d => WhitelistManager.addDomain trim toLowerCase d whitelist
  | ManagerRemove d => WhitelistManager.removeDomain d whitelist
  end.

Fixpoint applyWhitelistOps (trim toLowerCase : string -> string)
    (ops : list WhitelistOp) (whitelist : list string) : list string :=
  match ops with
  | [] => whitelist
  | op :: rest =>
      applyWhitelistOps trim toLowerCase rest
        (applyWhitelistOp trim toLowerCase op whitelist)
  end.

(* ================================================================== *)
(** ** Recent scans card of the React dashboard                         *)
(* ================================================================== *)

Module RecentScansCard.

(** The label of formatTime: ['Just now'], [`${n} min ago`],
    [`${n} hours ago`] or the locale date of the instant. *)
Inductive TimeLabel : Type :=
| JustNow
| MinAgo (n : Z)
| HoursAgo (n : Z)
| LocaleDate (instant : Z).

Definition formatTime (now timestamp : Z) : TimeLabel :=
  let diff := (now - timestamp) / 1000 in
  if diff <? 60 then JustNow
  else if diff <? 3600 then MinAgo (diff / 60)
  else if diff <? 86400 then HoursAgo (diff / 3600)
  else LocaleDate timestamp.

End RecentScansCard.

(** *** Sequences of navigations seen by the service worker *)

(** One committed navigation with what the listener reads: the stored
    settings and whitelist, the host name of the URL, the answer of the
    back end and the clock. *)
Record Navigation : Type := mkNavigation {
  nav_frameId : Z;
  nav_settings : option ServiceWorker.Settings;
  nav_whitelist : option (list string);
  nav_url : string;
  nav_domain : string;
  nav_backend : FetchOutcome;
  nav_clock : ServiceWorker.Clock
}.

Definition navigate (toDateString : Z -> string) (n : Navigation)
    (local : ServiceWorker.LocalStorage)
  : ServiceWorker.LocalStorage * list ServiceWorker.ChromeCall :=
  ServiceWorker.onCommitted toDateString (nav_frameId n) (nav_settings n)
    (nav_whitelist n) (nav_url n) (nav_domain n) (nav_backend n)
    (nav_clock n) local.

(** The storage after navigations handled one after the other. *)
Fixpoint navigateAll (toDateString : Z -> string) (navs : list Navigation)
    (local : ServiceWorker.LocalStorage) : ServiceWorker.LocalStorage :=
  match navs with
  | [] => local
  | n :: rest =>
      navigateAll toDateString rest (fst (navigate toDateString n local))
  end.

(** The navigation is scanned: main frame, protection on, ordinary URL,
    domain not on the whitelist. *)
Definition isScanned (n : Navigation) : bool :=
  (nav_frameId n =? 0)
  && ServiceWorker.enabled
       (match nav_settings n with
        | Some s => s
        | None => ServiceWorker.mkSettings true true true
        end)
  && negb (String.prefix "chrome://" (nav_url n)
           || String.prefix "chrome-extension://" (nav_url n))
  && negb (match nav_whitelist n with
           | Some l => existsb (String.eqb (nav_domain n)) l
           | None => false
           end).

(** The three keys of the storage agree: all absent, or the last result,
    a list of at most 10 scans headed by the scan of that result, and
    statistics with a positive count of the day and a lastScan. *)
Definition storageAgrees (local : ServiceWorker.LocalStorage) : Prop :=
  match ServiceWorker.lastScanResult local, ServiceWorker.recentScans local,
        ServiceWorker.stats local with
  | None, None, None => True
  | Some r, Some (h :: rest), Some s =>
      scan_is_phishing h = is_phishing r /\
      scan_threat_level h = threat_level r /\
      scan_confidence h = confidence r /\
      (List.length (h :: rest) <= 10)%nat /\
      1 <= scansToday s /\
      0 <= threatsBlocked s /\
      lastScan s <> None
  | _, _, _ => False
  end.

(* ================================================================== *)
(** ** Facts about the Map model                                        *)
(* ================================================================== *)

Module JsMapFacts.
Import JsMap.
Section Facts.
Variable V : Type.
Implicit Types (m : t V) (k : string) (v : V).

Lemma get_set_same m k v : get k (set k v m) = Some v.
Proof.
  induction m as [|[k' v'] m IH]; simpl.
  - now rewrite String.eqb_refl.
  - destruct (String.eqb k k') eqn:E; simpl.
    + now rewrite String.eqb_refl.
    + now rewrite E.
Qed.

Lemma keys_set m k v k' :
  In k' (keys (set k v m)) <-> k' = k \/ In k' (keys m).
Proof.
  induction m as [|[k0 v0] m IH]; simpl.
  - intuition.
  - destruct (String.eqb_spec k k0) as [->|Hk]; simpl.
    + intuition.
    + rewrite IH. intuition.
Qed.

Lemma NoDup_keys_set m k v : NoDup (keys m) -> NoDup (keys (set k v m)).
Proof.
  induction m as [|[k0 v0] m IH]; simpl; intros H.
  - constructor; [simpl; tauto | constructor].
  - inversion H as [|? ? Hnin Hnd]; subst.
    destruct (String.eqb_spec k k0) as [->|Hk]; simpl.
    + now constructor.
    + constructor; [|now apply IH].
      rewrite (keys_set m k v k0). intros [E|E]; congruence.
Qed.

Lemma size_set_le m k v : (size (set k v m) <= S (size m))%nat.
Proof.
  unfold size. induction m as [|[k0 v0] m IH]; simpl; [lia|].
  destruct (String.eqb k k0); simpl; lia.
Qed.

Lemma size_set_resident m k v :
  In k (keys m) -> size (set k v m) = size m.
Proof.
  unfold size. induction m as [|[k0 v0] m IH]; simpl; [tauto|].
  destruct (String.eqb_spec k k0) as [->|Hk]; simpl; [reflexivity|].
  intros [E|E]; [congruence | now rewrite IH].
Qed.

Lemma In_keys_set_self m k v : In k (keys (set k v m)).
Proof. apply keys_set. now left. Qed.

Lemma In_delete m k (e : string * V) :
  In e (delete k m) <-> In e m /\ fst e <> k.
Proof.
  unfold delete. rewrite filter_In.
  destruct (String.eqb_spec k (fst e)); simpl; intuition congruence.
Qed.

Lemma size_delete_le m k : (size (delete k m) <= size m)%nat.
Proof. unfold size, delete. apply filter_length_le. Qed.

Lemma size_delete_lt m k :
  In k (keys m) -> (size (delete k m) < size m)%nat.
Proof.
  unfold size, delete, keys.
  induction m as [|[k0 v0] m IH]; simpl; [tauto|].
  destruct (String.eqb_spec k k0) as [->|Hk]; simpl.
  - intros _. pose proof (filter_length_le
      (fun e : string * V => negb (String.eqb k0 (fst e))) m). lia.
  - intros [E|E]; [congruence|]. specialize (IH E). lia.
Qed.

Lemma NoDup_keys_filter (f : string * V -> bool) m :
  NoDup (keys m) -> NoDup (keys (filter f m)).
Proof.
  unfold keys. induction m as [|e m IH]; simpl; intros H; [constructor|].
  inversion H as [|? ? Hnin Hnd]; subst.
  destruct (f e); simpl; [|auto].
  constructor; [|auto].
  intros Hin. apply Hnin. apply in_map_iff in Hin.
  destruct Hin as [x [Hx Hin]]. apply filter_In in Hin.
  apply in_map_iff. exists x. tauto.
Qed.

Lemma NoDup_keys_delete m k : NoDup (keys m) -> NoDup (keys (delete k m)).
Proof. apply NoDup_keys_filter. Qed.

Lemma count_absent m k : ~ In k (keys m) -> count k m = O.
Proof.
  unfold count, keys. induction m as [|[k0 v0] m IH]; simpl; [reflexivity|].
  intros H. destruct (String.eqb_spec k k0) as [->|Hk]; [tauto|].
  apply IH. tauto.
Qed.

Lemma count_NoDup m k : NoDup (keys m) -> (count k m <= 1)%nat.
Proof.
  induction m as [|[k0 v0] m IH]; simpl; intros H; [unfold count; simpl; lia|].
  inversion H as [|? ? Hnin Hnd]; subst.
  unfold count in *. simpl.
  destruct (String.eqb_spec k k0) as [->|Hk]; simpl.
  - pose proof (@count_absent m k0 Hnin) as E. unfold count in E.
    rewrite E. lia.
  - auto.
Qed.

Lemma count_resident m k : In k (keys m) -> (1 <= count k m)%nat.
Proof.
  unfold count, keys. induction m as [|[k0 v0] m IH]; simpl; [tauto|].
  destruct (String.eqb_spec k k0) as [->|Hk]; simpl; [lia|].
  intros [E|E]; [congruence | auto].
Qed.

Lemma In_keys_delete m k k' :
  In k' (keys (delete k m)) <-> In k' (keys m) /\ k' <> k.
Proof.
  unfold keys. rewrite !in_map_iff. split.
  - intros [x [Hx Hin]]. apply In_delete in Hin. destruct Hin as [Hin Hne].
    split; [exists x; tauto | congruence].
  - intros [[x [Hx Hin]] Hne]. exists x. split; [exact Hx|].
    apply In_delete. split; [exact Hin | congruence].
Qed.

Lemma delete_absent m k : ~ In k (keys m) -> delete k m = m.
Proof.
  unfold delete, keys. induction m as [|[k0 v0] m IH]; simpl; [reflexivity|].
  intros H. destruct (String.eqb_spec k k0) as [->|Hk]; [tauto|].
  simpl. f_equal. apply IH. tauto.
Qed.

Lemma size_delete_exact m k :
  NoDup (keys m) -> In k (keys m) -> S (size (delete k m)) = size m.
Proof.
  unfold size. induction m as [|[k0 v0] m IH]; simpl; [tauto|].
  intros H Hin. inversion H as [|? ? Hnin Hnd]; subst.
  unfold delete. simpl.
  destruct (String.eqb_spec k k0) as [->|Hk]; simpl.
  - fold (delete k0 m). now rewrite delete_absent.
  - fold (delete k m). f_equal. apply IH; [exact Hnd|].
    destruct Hin as [E|E]; [congruence | exact E].
Qed.

(** Entries of a map with unique keys are determined by their key. *)
Lemma NoDup_keys_inj m (x y : string * V) :
  NoDup (keys m) -> In x m -> In y m -> fst x = fst y -> x = y.
Proof.
  unfold keys. induction m as [|e m IH]; simpl; [tauto|].
  intros H Hx Hy E. inversion H as [|? ? Hnin Hnd]; subst.
  destruct Hx as [->|Hx], Hy as [->|Hy]; auto.
  - exfalso. apply Hnin. rewrite E. now apply in_map.
  - exfalso. apply Hnin. rewrite <- E. now apply in_map.
Qed.
End Facts.
End JsMapFacts.

(* ================================================================== *)
(** ** Facts about the sort                                             *)
(* ================================================================== *)

Section ArraySortFacts.
Variable A : Type.
Variable cmp : A -> A -> Z.

Lemma sort_insert_perm (x : A) (l : list A) :
  Permutation (sort_insert cmp x l) (x :: l).
Proof.
  induction l as [|y l IH]; simpl; [reflexivity|].
  destruct (cmp x y <=? 0); [reflexivity|].
  rewrite IH. apply perm_swap.
Qed.

Lemma array_sort_perm (l : list A) : Permutation (array_sort cmp l) l.
Proof.
  induction l as [|x l IH]; simpl; [reflexivity|].
  rewrite sort_insert_perm. now constructor.
Qed.

(** For a comparator that subtracts a numeric field, the sort orders
    the array by that field. *)
Variable field : A -> Z.
Hypothesis cmp_field : forall a b, cmp a b = field a - field b.

Lemma sort_insert_sorted (x : A) (l : list A) :
  StronglySorted (field_le field) l -> StronglySorted (field_le field) (sort_insert cmp x l).
Proof.
  induction l as [|y l IH]; simpl; intros Hs.
  - constructor; constructor.
  - inversion Hs as [|? ? Hs' Hall]; subst.
    destruct (Z.leb_spec (cmp x y) 0) as [Hle|Hgt]; rewrite cmp_field in *.
    + constructor; [assumption|].
      constructor; [unfold field_le; lia|].
      eapply Forall_impl; [|exact Hall].
      unfold field_le. intros; lia.
    + constructor; [auto|].
      eapply Permutation_Forall.
      * symmetry. apply sort_insert_perm.
      * constructor; [unfold field_le; lia | assumption].
Qed.

Lemma array_sort_sorted (l : list A) :
  StronglySorted (field_le field) (array_sort cmp l).
Proof.
  induction l as [|x l IH]; simpl; [constructor|].
  now apply sort_insert_sorted.
Qed.

Lemma In_skipn (n : nat) (l : list A) (y : A) :
  In y (skipn n l) -> In y l.
Proof.
  intros H. rewrite <- (firstn_skipn n l). apply in_or_app. now right.
Qed.

Lemma In_firstn (n : nat) (l : list A) (y : A) :
  In y (firstn n l) -> In y l.
Proof.
  intros H. rewrite <- (firstn_skipn n l). apply in_or_app. now left.
Qed.

(** In a sorted array every element of a prefix is below every element
    of the rest. *)
Lemma sorted_prefix_le (n : nat) (l : list A) (x y : A) :
  StronglySorted (field_le field) l ->
  In x (firstn n l) -> In y (skipn n l) -> field x <= field y.
Proof.
  revert l. induction n as [|n IH]; intros l Hs Hx Hy; simpl in *.
  - contradiction.
  - destruct l as [|z l]; simpl in *; [contradiction|].
    inversion Hs as [|? ? Hs' Hall]; subst.
    destruct Hx as [->|Hx].
    + rewrite Forall_forall in Hall. apply Hall.
      eapply In_skipn; eassumption.
    + eapply IH; eassumption.
Qed.
End ArraySortFacts.

(* ================================================================== *)
(** ** Facts about the scan cache                                       *)
(* ================================================================== *)

Module ScanCacheFacts.
Import Background JsMapFacts.

Lemma deleteOldest_step n e rest (c : Cache) :
  deleteOldest (S n) (e :: rest) c = deleteOldest n rest (JsMap.delete (fst e) c).
Proof. reflexivity. Qed.

Lemma deleteOldest_In n : forall entries (c : Cache) x,
  In x (fst (deleteOldest n entries c)) <->
  In x c /\ ~ In (fst x) (map fst (firstn n entries)).
Proof.
  induction n as [|n IH]; intros entries c x.
  - simpl. tauto.
  - destruct entries as [|e rest].
    + simpl. tauto.
    + rewrite deleteOldest_step, IH, In_delete. simpl. intuition congruence.
Qed.

Lemma deleteOldest_size_le n : forall entries (c : Cache),
  (JsMap.size (fst (deleteOldest n entries c)) <= JsMap.size c)%nat.
Proof.
  induction n as [|n IH]; intros entries c; [simpl; lia|].
  destruct entries as [|e rest]; [simpl; lia|].
  rewrite deleteOldest_step.
  pose proof (IH rest (JsMap.delete (fst e) c)).
  pose proof (size_delete_le c (fst e)). lia.
Qed.

Lemma deleteOldest_NoDup n : forall entries (c : Cache),
  NoDup (JsMap.keys c) -> NoDup (JsMap.keys (fst (deleteOldest n entries c))).
Proof.
  induction n as [|n IH]; intros entries c H; [exact H|].
  destruct entries as [|e rest]; [exact H|].
  rewrite deleteOldest_step. apply IH. now apply NoDup_keys_delete.
Qed.

(** The loop reads inside the array, hence never throws, when the array
    holds at least as many entries as are cleared. *)
Lemma deleteOldest_no_throw n : forall entries (c : Cache),
  (n <= List.length entries)%nat -> snd (deleteOldest n entries c) = Return tt.
Proof.
  induction n as [|n IH]; intros entries c H; [reflexivity|].
  destruct entries as [|e rest]; simpl in H; [lia|].
  rewrite deleteOldest_step. apply IH. lia.
Qed.

Lemma sorted_entries (c : Cache) :
  StronglySorted timestamp_le (array_sort byTimestamp (JsMap.entries c)).
Proof. apply array_sort_sorted. reflexivity. Qed.

(** With unique keys the loop removes one entry per round. *)
Lemma deleteOldest_size_exact n : forall entries (c : Cache),
  NoDup (JsMap.keys c) ->
  NoDup (map fst entries) ->
  (forall x, In x entries -> In (fst x) (JsMap.keys c)) ->
  (n <= List.length entries)%nat ->
  (JsMap.size (fst (deleteOldest n entries c)) + n)%nat = JsMap.size c.
Proof.
  induction n as [|n IH]; intros entries c Hc He Hsub Hlen; [simpl; lia|].
  destruct entries as [|e rest]; simpl in Hlen; [lia|].
  rewrite deleteOldest_step.
  inversion He as [|? ? Hnin Hnd]; subst.
  assert (In (fst e) (JsMap.keys c)) as Hin by (apply Hsub; now left).
  pose proof (size_delete_exact c (fst e) Hc Hin) as Hex.
  rewrite <- Hex, <- (IH rest (JsMap.delete (fst e) c)); try lia.
  - now apply NoDup_keys_delete.
  - exact Hnd.
  - intros x Hx. apply In_keys_delete. split; [apply Hsub; now right|].
    intros E. apply Hnin. rewrite <- E. now apply in_map.
Qed.

Section Params.
Variable TTL : Z.
Variable MAX_SIZE : nat.
Variable EVICT : nat.

Lemma storeResult_unfold k e (c : Cache) :
  storeResult MAX_SIZE EVICT k e c =
  let c1 := JsMap.set k e c in
  if (MAX_SIZE <? JsMap.size c1)%nat
  then deleteOldest EVICT (array_sort byTimestamp (JsMap.entries c1)) c1
  else (c1, Return tt).
Proof. reflexivity. Qed.

Lemma storeResult_size_bound k e (c : Cache) :
  (1 <= EVICT)%nat ->
  (JsMap.size c <= MAX_SIZE)%nat ->
  (JsMap.size (fst (storeResult MAX_SIZE EVICT k e c)) <= MAX_SIZE)%nat.
Proof.
  intros Hev Hsz. rewrite storeResult_unfold. cbv zeta.
  set (c1 := JsMap.set k e c).
  pose proof (size_set_le c k e) as Hle. fold c1 in Hle.
  destruct (Nat.ltb_spec MAX_SIZE (JsMap.size c1)) as [Hgt|Hok];
    [|simpl; lia].
  destruct EVICT as [|n]; [lia|].
  pose proof (array_sort_perm byTimestamp (JsMap.entries c1)) as Hperm.
  destruct (array_sort byTimestamp (JsMap.entries c1)) as [|e0 rest] eqn:Es.
  - apply Permutation_length in Hperm. unfold JsMap.entries, JsMap.size in *.
    simpl in Hperm. lia.
  - rewrite deleteOldest_step.
    pose proof (deleteOldest_size_le n rest (JsMap.delete (fst e0) c1)).
    assert (In (fst e0) (JsMap.keys c1)) as Hin.
    { apply in_map. eapply Permutation_in; [exact Hperm | now left]. }
    pose proof (size_delete_lt c1 (fst e0) Hin). lia.
Qed.

Lemma storeResult_NoDup k e (c : Cache) :
  NoDup (JsMap.keys c) ->
  NoDup (JsMap.keys (fst (storeResult MAX_SIZE EVICT k e c))).
Proof.
  intros H. rewrite storeResult_unfold. cbv zeta.
  destruct (_ <? _)%nat.
  - apply deleteOldest_NoDup. now apply NoDup_keys_set.
  - simpl. now apply NoDup_keys_set.
Qed.

Lemma storeResult_no_clear k e (c : Cache) :
  (JsMap.size (JsMap.set k e c) <= MAX_SIZE)%nat ->
  storeResult MAX_SIZE EVICT k e c = (JsMap.set k e c, Return tt).
Proof.
  intros H. rewrite storeResult_unfold. cbv zeta.
  destruct (Nat.ltb_spec MAX_SIZE (JsMap.size (JsMap.set k e c)));
    [lia | reflexivity].
Qed.

(** The store keeps nothing that was not written. *)
Lemma storeResult_retains k e (c : Cache) y :
  In y (fst (storeResult MAX_SIZE EVICT k e c)) -> In y (JsMap.set k e c).
Proof.
  rewrite storeResult_unfold. cbv zeta.
  destruct (_ <? _)%nat; [|simpl; tauto].
  intros H. apply deleteOldest_In in H. tauto.
Qed.

(** When the clearing runs it removes exactly [EVICT] entries and does
    not throw. *)
Lemma storeResult_clears k e (c : Cache) :
  NoDup (JsMap.keys c) ->
  (MAX_SIZE < JsMap.size (JsMap.set k e c))%nat ->
  (EVICT <= JsMap.size (JsMap.set k e c))%nat ->
  (JsMap.size (fst (storeResult MAX_SIZE EVICT k e c)) + EVICT)%nat =
    JsMap.size (JsMap.set k e c) /\
  snd (storeResult MAX_SIZE EVICT k e c) = Return tt.
Proof.
  intros Hc Hgt Hev. rewrite storeResult_unfold. cbv zeta.
  set (c1 := JsMap.set k e c) in *.
  destruct (Nat.ltb_spec MAX_SIZE (JsMap.size c1)) as [_|Hle]; [|lia].
  pose proof (array_sort_perm byTimestamp (JsMap.entries c1)) as Hperm.
  assert (NoDup (JsMap.keys c1)) as Hc1 by now apply NoDup_keys_set.
  assert (List.length (array_sort byTimestamp (JsMap.entries c1)) =
          JsMap.size c1) as Hlen by now apply Permutation_length.
  split.
  - apply deleteOldest_size_exact; [exact Hc1 | | | lia].
    + eapply Permutation_NoDup; [|exact Hc1].
      apply Permutation_map. now symmetry.
    + intros x Hx. apply in_map. eapply Permutation_in; eassumption.
  - apply deleteOldest_no_throw. lia.
Qed.

(** Every entry the store drops was written no later than every entry
    it keeps. *)
Lemma storeResult_drops_oldest k e (c : Cache) x y :
  NoDup (JsMap.keys c) ->
  In x (JsMap.set k e c) ->
  ~ In x (fst (storeResult MAX_SIZE EVICT k e c)) ->
  In y (fst (storeResult MAX_SIZE EVICT k e c)) ->
  timestamp (snd x) <= timestamp (snd y).
Proof.
  intros Hc Hx Hnx Hy. rewrite storeResult_unfold in Hnx, Hy.
  cbv zeta in Hnx, Hy.
  set (c1 := JsMap.set k e c) in *.
  destruct (_ <? _)%nat; [|simpl in *; contradiction].
  set (sorted := array_sort byTimestamp (JsMap.entries c1)) in *.
  pose proof (array_sort_perm byTimestamp (JsMap.entries c1)) as Hperm.
  fold sorted in Hperm.
  assert (NoDup (JsMap.keys c1)) as Hc1 by now apply NoDup_keys_set.
  rewrite deleteOldest_In in Hnx, Hy. destruct Hy as [Hy Hky].
  assert (In (fst x) (map fst (firstn EVICT sorted))) as Hkx.
  { destruct (in_dec string_dec (fst x) (map fst (firstn EVICT sorted)));
      tauto. }
  apply in_map_iff in Hkx. destruct Hkx as [x' [Ek Hx']].
  assert (x' = x) as ->.
  { apply (@NoDup_keys_inj _ c1); auto.
    eapply Permutation_in; [exact Hperm|]. eapply In_firstn; eassumption. }
  assert (In y (skipn EVICT sorted)) as Hys.
  { assert (In y sorted) as Hs
      by (eapply Permutation_in; [symmetry; exact Hperm | exact Hy]).
    rewrite <- (firstn_skipn EVICT sorted) in Hs.
    apply in_app_or in Hs. destruct Hs as [Hs|Hs]; [|exact Hs].
    exfalso. apply Hky. now apply in_map. }
  apply (@sorted_prefix_le _ (fun e0 : string * CacheEntry =>
           timestamp (snd e0)) EVICT sorted x y);
    [apply sorted_entries | exact Hx' | exact Hys].
Qed.

(** A scan leaves the cache as it is or runs the store of one result. *)
Lemma scanURL_cache_cases w u (c : Cache) :
  fst (scanURL_with TTL MAX_SIZE EVICT w u c) = c \/
  exists r, fst (scanURL_with TTL MAX_SIZE EVICT w u c) =
            fst (storeResult MAX_SIZE EVICT (hashURL u)
                   (mkEntry r (now_store w)) c).
Proof.
  unfold scanURL_with.
  destruct (cachedResult TTL (now_lookup w) (hashURL u) c); [now left|].
  unfold try_catch, requestAndStore, bind, fetch, json, ret, throw.
  destruct (backend w) as [|o st body]; simpl; [now left|].
  destruct o; simpl; [|now left].
  destruct body as [r|]; simpl; [|now left].
  right. exists r.
  destruct (storeResult MAX_SIZE EVICT (hashURL u) (mkEntry r (now_store w)) c)
    as [c' [[]|err]]; reflexivity.
Qed.

(** scanURL never throws. *)
Lemma scanURL_returns w u (c : Cache) :
  exists r, snd (scanURL_with TTL MAX_SIZE EVICT w u c) = Return r.
Proof.
  unfold scanURL_with.
  destruct (cachedResult TTL (now_lookup w) (hashURL u) c) as [r|];
    [now exists r|].
  unfold try_catch.
  destruct (requestAndStore MAX_SIZE EVICT w u (hashURL u) c)
    as [c' [r|err]]; simpl; eauto.
Qed.

Lemma scanURL_size_bound w u (c : Cache) :
  (1 <= EVICT)%nat ->
  (JsMap.size c <= MAX_SIZE)%nat ->
  (JsMap.size (fst (scanURL_with TTL MAX_SIZE EVICT w u c)) <= MAX_SIZE)%nat.
Proof.
  intros Hev Hsz.
  destruct (scanURL_cache_cases w u c) as [->|[r ->]]; [exact Hsz|].
  now apply storeResult_size_bound.
Qed.

Lemma scanURL_NoDup w u (c : Cache) :
  NoDup (JsMap.keys c) ->
  NoDup (JsMap.keys (fst (scanURL_with TTL MAX_SIZE EVICT w u c))).
Proof.
  intros H.
  destruct (scanURL_cache_cases w u c) as [->|[r ->]]; [exact H|].
  now apply storeResult_NoDup.
Qed.
End Params.

Lemma scanAll_size_bound scans : forall c : Cache,
  (JsMap.size c <= 1000)%nat -> (JsMap.size (scanAll scans c) <= 1000)%nat.
Proof.
  induction scans as [|[w u] rest IH]; intros c H; simpl; [exact H|].
  apply IH. unfold scanURL. apply scanURL_size_bound; [lia | exact H].
Qed.

Lemma scanAll_NoDup scans : forall c : Cache,
  NoDup (JsMap.keys c) -> NoDup (JsMap.keys (scanAll scans c)).
Proof.
  induction scans as [|[w u] rest IH]; intros c H; simpl; [exact H|].
  apply IH. unfold scanURL. now apply scanURL_NoDup.
Qed.

End ScanCacheFacts.

(* ================================================================== *)
(** ** Properties of the scan cache                                     *)
(* ================================================================== *)

Module ScanCacheProperties.
Import Background JsMapFacts ScanCacheFacts.

Lemma cachedResult_spec TTL now k (c : Cache) v :
  cachedResult TTL now k c = Some v <->
  exists e, JsMap.get k c = Some e /\ result e = v /\ now - timestamp e < TTL.
Proof.
  unfold cachedResult, JsMap.has.
  destruct (JsMap.get k c) as [e|].
  - destruct (Z.ltb_spec (now - timestamp e) TTL) as [Hlt|Hge]; split.
    + intros H. injection H as <-. now exists e.
    + intros [e' [He [Hr _]]]. injection He as <-. now rewrite Hr.
    + discriminate.
    + intros [e' [He [_ Hlt]]]. injection He as <-. lia.
  - split; [discriminate | intros [e [He _]]; discriminate].
Qed.

Lemma cachedResult_stale TTL now k (c : Cache) e :
  JsMap.get k c = Some e -> timestamp e + TTL <= now ->
  cachedResult TTL now k c = None.
Proof.
  intros Hg Hst.
  destruct (cachedResult TTL now k c) as [v|] eqn:E; [|reflexivity].
  apply cachedResult_spec in E. destruct E as [e' [He [_ Hlt]]].
  rewrite Hg in He. injection He as <-. lia.
Qed.

(** What scanURL does when the request is sent and the back end fails. *)
Lemma scanURL_miss_backend_fails TTL MAX_SIZE EVICT w u (c : Cache) :
  cachedResult TTL (now_lookup w) (hashURL u) c = None ->
  backend_fails (backend w) ->
  scanURL_with TTL MAX_SIZE EVICT w u c = (c, Return (safeResult u)).
Proof.
  intros Hmiss Hfail. unfold scanURL_with. rewrite Hmiss.
  unfold try_catch, requestAndStore, bind, fetch, json, ret, throw.
  destruct (backend w) as [|o st body]; simpl in *; [reflexivity|].
  destruct o; simpl; [|reflexivity].
  destruct Hfail as [Hf| ->]; [discriminate | reflexivity].
Qed.

Lemma scanURL_hit TTL MAX_SIZE EVICT w u (c : Cache) r :
  cachedResult TTL (now_lookup w) (hashURL u) c = Some r ->
  scanURL_with TTL MAX_SIZE EVICT w u c = (c, Return r).
Proof. intros H. unfold scanURL_with. now rewrite H. Qed.

Lemma request_fails_backend_fails f : request_fails f -> backend_fails f.
Proof. destruct f; simpl; tauto. Qed.

Lemma scanUrl_backend_fails f :
  backend_fails f ->
  ServiceWorker.scanUrl f tt = (tt, Return ServiceWorker.safeResult).
Proof.
  intros Hfail. unfold ServiceWorker.scanUrl, try_catch, bind, fetch, json,
    ret, throw.
  destruct f as [|o st body]; simpl in *; [reflexivity|].
  destruct o; simpl; [|reflexivity].
  destruct Hfail as [Hf| ->]; [discriminate | reflexivity].
Qed.

(** C2: in the in-process cache the number of resident entries never
    exceeds the capacity: after every completed scan from the empty cache,
    and after every store of a result (the write that may clear old
    entries included), the size of scanCache is at most 1000. *)
Theorem scanCache_size_bounded :
  forall (scans : list (World * string)) (w : World) (u k : string)
         (e : CacheEntry),
    let c := scanAll scans (JsMap.empty CacheEntry) in
    (JsMap.size c <= 1000)%nat /\
    (JsMap.size (fst (scanURL w u c)) <= 1000)%nat /\
    (JsMap.size (fst (storeResult 1000 500 k e c)) <= 1000)%nat.
Proof.
  intros scans w u k e c.
  assert (JsMap.size c <= 1000)%nat as Hc.
  { apply scanAll_size_bound. simpl. lia. }
  split; [exact Hc|]. split.
  - unfold scanURL. apply scanURL_size_bound; [lia | exact Hc].
  - apply storeResult_size_bound; [lia | exact Hc].
Qed.

(** C6: set is idempotent with respect to the size of the cache: a second
    set of the same key with the same result replaces the entry (the size
    stays, the key has exactly one entry, the entry read back is the one
    last written), and after any sequence of scans and stores no key has
    more than one entry. *)
Theorem set_same_key_keeps_size :
  forall (scans : list (World * string)) (k k' : string) (r : ScanResult)
         (t1 t2 : Z),
    let c := scanAll scans (JsMap.empty CacheEntry) in
    let once := JsMap.set k (mkEntry r t1) c in
    let twice := JsMap.set k (mkEntry r t2) once in
    JsMap.size twice = JsMap.size once /\
    JsMap.count k twice = 1%nat /\
    JsMap.get k twice = Some (mkEntry r t2) /\
    (JsMap.count k' c <= 1)%nat /\
    (JsMap.count k'
       (fst (storeResult 1000 500 k (mkEntry r t2)
          (fst (storeResult 1000 500 k (mkEntry r t1) c)))) <= 1)%nat.
Proof.
  intros scans k k' r t1 t2 c once twice.
  assert (NoDup (JsMap.keys c)) as Hc.
  { apply scanAll_NoDup. constructor. }
  assert (NoDup (JsMap.keys twice)) as Htw.
  { unfold twice, once. now do 2 apply NoDup_keys_set. }
  split; [|split; [|split; [|split]]].
  - unfold twice. apply size_set_resident. apply In_keys_set_self.
  - assert (JsMap.count k twice <= 1)%nat by now apply count_NoDup.
    assert (1 <= JsMap.count k twice)%nat.
    { apply count_resident. apply In_keys_set_self. }
    lia.
  - apply get_set_same.
  - now apply count_NoDup.
  - apply count_NoDup. now do 2 apply storeResult_NoDup.
Qed.

(** C3: the freshness window is honoured on reads: a lookup returns the
    stored result exactly when the key is resident and now - timestamp is
    strictly below the window; once now >= timestamp + window the lookup
    finds nothing (an entry written with a 5 s window is a miss 6 s
    later), and scanURL, whose window is 300000 ms, then answers from the
    request and not from the cache. *)
Theorem ttl_honored_on_reads :
  forall (TTL now : Z) (k : string) (c : Cache),
    (forall v, cachedResult TTL now k c = Some v <->
               exists e, JsMap.get k c = Some e /\ result e = v /\
                         now - timestamp e < TTL) /\
    (forall e, JsMap.get k c = Some e -> timestamp e + TTL <= now ->
               cachedResult TTL now k c = None) /\
    (forall v t, cachedResult 5000 (t + 6000) k
                   (JsMap.set k (mkEntry v t) c) = None) /\
    (forall w u e, JsMap.get (hashURL u) c = Some e ->
                   timestamp e + 300000 <= now_lookup w ->
                   backend_fails (backend w) ->
                   scanURL w u c = (c, Return (safeResult u))).
Proof.
  intros TTL now k c. split; [|split; [|split]].
  - intros v. apply cachedResult_spec.
  - intros e. apply cachedResult_stale.
  - intros v t. apply cachedResult_stale with (e := mkEntry v t).
    + apply get_set_same.
    + simpl. lia.
  - intros w u e Hg Hst Hfail. unfold scanURL.
    apply scanURL_miss_backend_fails; [|exact Hfail].
    eapply cachedResult_stale; eassumption.
Qed.

Lemma ttl_honored_on_reads_witness :
  let v := mkScanResult None true 1%Q "High" [] in
  let c := JsMap.set "k" (mkEntry v 0) (JsMap.empty CacheEntry) in
  JsMap.get "k" c = Some (mkEntry v 0) /\
  0 + 5000 <= 6000 /\
  cachedResult 5000 6000 "k" c = None /\
  cachedResult 5000 4999 "k" c = Some v.
Proof.
  intros v c.
  destruct (ttl_honored_on_reads 5000 6000 "k" c) as [_ [Hstale _]].
  destruct (ttl_honored_on_reads 5000 4999 "k" c) as [Hfresh _].
  assert (JsMap.get "k" c = Some (mkEntry v 0)) as Hg by reflexivity.
  assert (0 + 5000 <= 6000) as Hle by lia.
  split; [exact Hg|]. split; [exact Hle|]. split.
  - exact (Hstale (mkEntry v 0) Hg Hle).
  - apply Hfresh. exists (mkEntry v 0).
    split; [exact Hg|]. split; [reflexivity | simpl; lia].
Defined.

(** C4: when the back end is unavailable the scan still returns normally:
    for every URL and every cache, scanURL hands back the fresh cached
    result if there is one and the safe result otherwise, leaves the
    cache as it was, and throws nothing; scanUrl of the service worker
    returns its safe result. *)
Theorem scan_survives_backend_outage :
  forall (w : World) (u : string) (c : Cache),
    backend_fails (backend w) ->
    (exists r, scanURL w u c = (c, Return r) /\
       (cachedResult 300000 (now_lookup w) (hashURL u) c = Some r \/
        cachedResult 300000 (now_lookup w) (hashURL u) c = None /\
        r = safeResult u)) /\
    ServiceWorker.scanUrl (backend w) tt =
      (tt, Return ServiceWorker.safeResult).
Proof.
  intros w u c Hfail. split.
  - destruct (cachedResult 300000 (now_lookup w) (hashURL u) c) as [r|] eqn:E.
    + exists r. split; [now apply scanURL_hit | now left].
    + exists (safeResult u). split; [|now right].
      now apply scanURL_miss_backend_fails.
  - now apply scanUrl_backend_fails.
Qed.

Lemma scan_survives_backend_outage_witness :
  backend_fails (backend (mkWorld 0 FetchRejects 0)) /\
  ((exists r, scanURL (mkWorld 0 FetchRejects 0) "http://example.com/" [] =
                ([], Return r) /\
      (cachedResult 300000 0 (hashURL "http://example.com/") [] = Some r \/
       cachedResult 300000 0 (hashURL "http://example.com/") [] = None /\
       r = safeResult "http://example.com/")) /\
   ServiceWorker.scanUrl FetchRejects tt =
     (tt, Return ServiceWorker.safeResult)).
Proof.
  split.
  - exact I.
  - apply (scan_survives_backend_outage (mkWorld 0 FetchRejects 0)
             "http://example.com/" []).
    exact I.
Defined.

(** *** Which entries are cleared *)

Import Scenario.

(** The trace of four operations on a cache cleared above two entries,
    one entry at a time. *)
Lemma lruTrace_outcome :
  snd (scanURL_with 300000 2 1 (outage 3) "a"
         (scanAll_with 300000 2 1 (firstn 2 lruTrace) [])) = Return (verdict 1) /\
  cachedResult 300000 5 (hashURL "a") (scanAll_with 300000 2 1 lruTrace [])
    = None /\
  cachedResult 300000 5 (hashURL "b") (scanAll_with 300000 2 1 lruTrace [])
    = Some (verdict 2) /\
  cachedResult 300000 5 (hashURL "c") (scanAll_with 300000 2 1 lruTrace [])
    = Some (verdict 3).
Proof. vm_compute. repeat split; reflexivity. Qed.

(** The same with the literals of the source: the site read last before
    the 1001st store is cleared, the 501st site, never read, stays. *)
Lemma fullTrace_outcome :
  snd (scanURL (outage 1001) (site 1) (scanAll (firstn 1000 fullTrace) []))
    = Return (verdict 1) /\
  cachedResult 300000 1003 (hashURL (site 1)) (scanAll fullTrace []) = None /\
  cachedResult 300000 1003 (hashURL (site 501)) (scanAll fullTrace [])
    = Some (verdict 501).
Proof. vm_compute. repeat split; reflexivity. Qed.

(** C1, as stated, fails: after set(a,1); set(b,2); get(a); set(c,3) on a
    cache of capacity 2 the read of a was a hit, yet a is the entry that
    was cleared and b is still served; with the literals of the source
    the site read last is cleared while an older unread one stays. *)
Lemma lru_eviction_counterexample :
  let c2 := scanAll_with 300000 2 1 lruTrace [] in
  ~ (cachedResult 300000 5 (hashURL "b") c2 = None /\
     cachedResult 300000 5 (hashURL "a") c2 = Some (verdict 1) /\
     cachedResult 300000 5 (hashURL "c") c2 = Some (verdict 3)) /\
  snd (scanURL_with 300000 2 1 (outage 3) "a"
         (scanAll_with 300000 2 1 (firstn 2 lruTrace) [])) = Return (verdict 1) /\
  cachedResult 300000 5 (hashURL "a") c2 = None /\
  cachedResult 300000 5 (hashURL "b") c2 = Some (verdict 2) /\
  snd (scanURL (outage 1001) (site 1) (scanAll (firstn 1000 fullTrace) []))
    = Return (verdict 1) /\
  cachedResult 300000 1003 (hashURL (site 1)) (scanAll fullTrace []) = None /\
  cachedResult 300000 1003 (hashURL (site 501)) (scanAll fullTrace [])
    = Some (verdict 501).
Proof.
  intros c2.
  destruct lruTrace_outcome as [Hhit [Ha [Hb Hc]]].
  destruct fullTrace_outcome as [Fhit [F1 F501]].
  fold c2 in Ha, Hb, Hc.
  split; [|tauto].
  intros [Hb' _]. rewrite Hb in Hb'. discriminate.
Qed.

(** C1, amended: the cache is bounded and clears by age of the write, not
    by recency of access.  A hit returns the cached result and leaves the
    cache as it was; a store that keeps the size within 1000 keeps every
    entry; a store that brings the size to 1001 leaves 501 entries, all of
    them written by the store or before, and every entry it drops has a
    timestamp no later than every entry it keeps.  On the trace
    set(a,1); set(b,2); get(a); set(c,3) with the clearing scaled to
    capacity 2, get(a) is a miss while get(b)=2 and get(c)=3 are hits. *)
Theorem eviction_drops_oldest_written :
  forall (scans : list (World * string)) (w : World) (u k : string)
         (e : CacheEntry),
    let c := scanAll scans (JsMap.empty CacheEntry) in
    let written := JsMap.set k e c in
    let kept := fst (storeResult 1000 500 k e c) in
    (forall r, cachedResult 300000 (now_lookup w) (hashURL u) c = Some r ->
               scanURL w u c = (c, Return r)) /\
    ((JsMap.size written <= 1000)%nat -> kept = written) /\
    ((1000 < JsMap.size written)%nat ->
       JsMap.size written = 1001%nat /\ JsMap.size kept = 501%nat) /\
    (forall y, In y kept -> In y written) /\
    (forall x y, In x written -> ~ In x kept -> In y kept ->
                 timestamp (snd x) <= timestamp (snd y)) /\
    (let c2 := scanAll_with 300000 2 1 lruTrace [] in
     cachedResult 300000 5 (hashURL "a") c2 = None /\
     cachedResult 300000 5 (hashURL "b") c2 = Some (verdict 2) /\
     cachedResult 300000 5 (hashURL "c") c2 = Some (verdict 3)).
Proof.
  intros scans w u k e c written kept.
  assert (NoDup (JsMap.keys c)) as Hnd by (apply scanAll_NoDup; constructor).
  assert (JsMap.size c <= 1000)%nat as Hsz
    by (apply scanAll_size_bound; simpl; lia).
  split; [|split; [|split; [|split; [|split]]]].
  - intros r Hr. unfold scanURL. now apply scanURL_hit.
  - intros Hle. unfold kept. now rewrite storeResult_no_clear.
  - intros Hgt.
    pose proof (size_set_le c k e) as Hle. fold written in Hle.
    assert (JsMap.size written = 1001%nat) as Hw by lia.
    split; [exact Hw|].
    destruct (@storeResult_clears 1000 500 k e c Hnd) as [Hex _];
      fold written; try lia.
    fold written kept in Hex. lia.
  - intros y. apply storeResult_retains.
  - intros x y Hx Hnx Hy. eapply storeResult_drops_oldest; eassumption.
  - intros c2. destruct lruTrace_outcome as [_ H]. exact H.
Qed.

Lemma eviction_drops_oldest_written_witness :
  let scans := firstn 1001 fullTrace in
  let k := hashURL (site 1001) in
  let e := mkEntry (verdict 1001) 1002 in
  let c := scanAll scans (JsMap.empty CacheEntry) in
  (1000 < JsMap.size (JsMap.set k e c))%nat /\
  JsMap.size (JsMap.set k e c) = 1001%nat /\
  JsMap.size (fst (storeResult 1000 500 k e c)) = 501%nat.
Proof.
  intros scans k e c.
  assert (1000 < JsMap.size (JsMap.set k e c))%nat as Hgt
    by (apply Nat.ltb_lt; vm_compute; reflexivity).
  destruct (eviction_drops_oldest_written scans (outage 0) "" k e)
    as [_ [_ [Hclear _]]].
  split; [exact Hgt|]. exact (Hclear Hgt).
Defined.

(** *** Failing open *)

(** C5: when the request to the back end throws or returns a non-OK
    status, the scan returns, without throwing, the default result with
    is_phishing false, confidence 0, threat level Unknown and no risk
    factors (scanURL adds the url to it), so the navigation listeners
    open no warning page and show no notification. *)
Theorem scan_fails_open :
  forall (w : World) (u : string) (c : Cache),
    request_fails (backend w) ->
    cachedResult 300000 (now_lookup w) (hashURL u) c = None ->
    scanURL w u c = (c, Return (safeResult u)) /\
    ServiceWorker.scanUrl (backend w) tt =
      (tt, Return (mkScanResult None false 0%Q "Unknown" [])) /\
    (is_phishing (safeResult u) = false /\
     confidence (safeResult u) = 0%Q /\
     threat_level (safeResult u) = "Unknown" /\
     risk_factors (safeResult u) = []) /\
    (forall isEnabled userSettings frameId allowed call,
        In call (snd (onBeforeNavigate isEnabled userSettings frameId allowed
                        w u c)) ->
        call = SetBadgeText "") /\
    (forall frameId settings whitelist domain clock local toDateString,
        snd (ServiceWorker.onCommitted toDateString frameId settings whitelist
               u domain (backend w) clock local) = []).
Proof.
  intros w u c Hfail Hmiss.
  pose proof (request_fails_backend_fails _ Hfail) as Hbf.
  assert (scanURL w u c = (c, Return (safeResult u))) as Hscan
    by (unfold scanURL; now apply scanURL_miss_backend_fails).
  split; [exact Hscan|].
  split; [now apply scanUrl_backend_fails|].
  split; [repeat split|].
  split.
  - intros isEnabled userSettings frameId allowed call.
    unfold onBeforeNavigate. rewrite Hscan.
    destruct (negb isEnabled || negb (frameId =? 0)); [simpl; tauto|].
    destruct allowed; [simpl; tauto|].
    simpl. intros [H|[]]. now symmetry.
  - intros frameId settings whitelist domain clock local toDateString.
    unfold ServiceWorker.onCommitted.
    rewrite (scanUrl_backend_fails _ Hbf).
    repeat match goal with
           | |- context [if ?b then _ else _] => destruct b
           end; reflexivity.
Qed.

Lemma scan_fails_open_witness :
  let w := mkWorld 0 (FetchResponds false 503 JsonInvalid) 0 in
  let u := "http://example.com/" in
  request_fails (backend w) /\
  cachedResult 300000 (now_lookup w) (hashURL u) [] = None /\
  scanURL w u [] = ([], Return (safeResult u)).
Proof.
  intros w u.
  split; [reflexivity|]. split; [reflexivity|].
  apply (scan_fails_open w u []); reflexivity.
Defined.

End ScanCacheProperties.

(* ================================================================== *)
(** ** Recent scans and daily statistics                                *)
(* ================================================================== *)

Module ExtensionProperties.

Lemma firstn_app_firstn (A : Type) (n : nat) (l1 l2 : list A) :
  firstn n (l1 ++ firstn n l2) = firstn n (l1 ++ l2).
Proof.
  rewrite !firstn_app, firstn_firstn. f_equal. f_equal. lia.
Qed.

Lemma recordScan_prepends wr scan stored :
  recordScan wr scan stored = firstn 10 (scan :: stored).
Proof.
  destruct wr; try reflexivity.
  unfold recordScan, Dashboard.addToRecentScans, unshift, slice0.
  destruct (Nat.ltb_spec 10 (List.length (scan :: stored))) as [Hgt|Hle];
    [reflexivity|].
  symmetry. now apply firstn_all2.
Qed.

Lemma recordAll_spec history : forall stored,
  (List.length stored <= 10)%nat ->
  recordAll history stored = firstn 10 (rev (map snd history) ++ stored).
Proof.
  induction history as [|[wr scan] rest IH]; intros stored Hlen;
    cbn [recordAll map rev app snd].
  - symmetry. now apply firstn_all2.
  - rewrite IH, recordScan_prepends.
    + rewrite firstn_app_firstn, <- app_assoc. reflexivity.
    + rewrite recordScan_prepends. apply firstn_le_length.
Qed.

(** C9: every writer of the recent-scans list (the onCommitted listener,
    handleScan of the popup, addToRecentScans of the dashboard) puts the
    new record first and keeps at most 10 entries, the older ones in the
    order they had; so after any sequence of recorded scans the list is
    the last ten of them, newest first. *)
Theorem recentScans_bounded_newest_first :
  forall (history : list (Writer * ScanRecord)) (wr : Writer)
         (scan : ScanRecord) (stored : list ScanRecord),
    recordScan wr scan stored = scan :: firstn 9 stored /\
    (List.length (recordScan wr scan stored) <= 10)%nat /\
    hd_error (recordScan wr scan stored) = Some scan /\
    ServiceWorker.addRecentScan scan None = [scan] /\
    recordAll history [] = firstn 10 (rev (map snd history)) /\
    (List.length (recordAll history []) <= 10)%nat.
Proof.
  intros history wr scan stored.
  rewrite recordScan_prepends.
  split; [reflexivity|]. split; [apply firstn_le_length|].
  split; [reflexivity|]. split; [reflexivity|].
  assert (recordAll history [] = firstn 10 (rev (map snd history))) as E.
  { rewrite recordAll_spec by (simpl; lia). now rewrite app_nil_r. }
  split; [exact E|]. rewrite E. apply firstn_le_length.
Qed.

Import ServiceWorker.

(** C10, as stated, fails when the stored statistics carry no lastScan,
    which is what the popup stores after a manual scan: the count was 5,
    no stored lastScan falls on another day, and updateStats sets the
    count to 1, not to 6. *)
Lemma updateStats_counterexample :
  let prev := Scenario.statsAfterPopupScan in
  let after :=
    updateStats Scenario.utcDateString 3000 3001 (Scenario.verdict 0)
                (Some prev) in
  prev = mkStats 5 2 None /\
  claimedScansToday Scenario.utcDateString 3000 prev = 6 /\
  scansToday after = 1 /\
  scansToday after <> claimedScansToday Scenario.utcDateString 3000 prev.
Proof. vm_compute. repeat split; try reflexivity. discriminate. Qed.

(** C10, amended: after updateStats(result), scansToday equals 1 if the
    stored lastScan is absent or fell on another calendar day than today,
    and the previous value plus 1 otherwise; threatsBlocked grows by
    exactly 1 if result.is_phishing is true and is unchanged otherwise, so
    it never decreases; lastScan is the current timestamp.  Missing
    statistics count as 0 scans, 0 threats and no lastScan. *)
Theorem updateStats_bookkeeping :
  forall (toDateString : Z -> string) (now_today now_stamp : Z)
         (r : ScanResult) (stored : option Stats),
    let prev := match stored with Some s => s | None => mkStats 0 0 None end in
    let after := updateStats toDateString now_today now_stamp r stored in
    scansToday after =
      match lastScan prev with
      | Some t =>
          if String.eqb (toDateString t) (toDateString now_today) then
            scansToday prev + 1
          else 1
      | None => 1
      end /\
    threatsBlocked after =
      threatsBlocked prev + (if is_phishing r then 1 else 0) /\
    threatsBlocked prev <= threatsBlocked after /\
    lastScan after = Some now_stamp.
Proof.
  intros toDateString now_today now_stamp r stored prev after.
  unfold after, updateStats. fold prev. simpl.
  split; [|split; [|split]].
  - destruct (lastScan prev) as [t|]; simpl; [|reflexivity].
    destruct (String.eqb (toDateString t) (toDateString now_today));
      reflexivity.
  - destruct (is_phishing r); lia.
  - destruct (is_phishing r); lia.
  - reflexivity.
Qed.

End ExtensionProperties.

(* ================================================================== *)
(** ** Connection pool and batch processor                              *)
(* ================================================================== *)

Module PoolProperties.
Import ConnectionPool.

















End PoolProperties.

Module BatchProperties.
Import BatchProcessor.
Section Facts.
Variable A : Type.
Variable T : nat.
Hypothesis T_positive : (1 <= T)%nat.

Lemma create_accumulating : accumulating T (create A T).
Proof. unfold accumulating, create; simpl. repeat split; auto; lia. Qed.

Lemma add_accumulating (r : A) (p : Processor A) :
  accumulating T p ->
  accumulating T (add r p) /\
  List.concat (flushed (add r p)) ++ items (add r p)
    = List.concat (flushed p) ++ items p ++ [r].
Proof.
  intros [Hth [Hlt [Hall Hcnt]]]. unfold add, swapOut; simpl.
  rewrite Hth, length_app; simpl.
  destruct (Nat.leb_spec T (List.length (items p) + 1)) as [Hge|Hlow];
    unfold accumulating; simpl.
  - split.
    + split; [reflexivity|]. split; [lia|]. split.
      * apply Forall_app. split; [exact Hall|].
        constructor; [rewrite length_app; simpl; lia | constructor].
      * rewrite length_app; simpl. lia.
    + rewrite concat_app; simpl. now rewrite !app_nil_r.
  - split; [|reflexivity].
    split; [reflexivity|]. split; [rewrite length_app; simpl; lia|].
    split; assumption.
Qed.

Lemma addAll_accumulating (rs : list A) : forall p : Processor A,
  accumulating T p ->
  accumulating T (addAll rs p) /\
  List.concat (flushed (addAll rs p)) ++ items (addAll rs p)
    = List.concat (flushed p) ++ items p ++ rs.
Proof.
  induction rs as [|r rest IH]; intros p Hp; simpl.
  - now rewrite app_nil_r.
  - destruct (add_accumulating r Hp) as [Hp' E].
    destruct (IH _ Hp') as [Hp'' E']. split; [exact Hp''|].
    rewrite E', app_assoc, E, <- !app_assoc. reflexivity.
Qed.

Lemma length_concat_full (l : list (list A)) :
  Forall (fun b => List.length b = T) l ->
  List.length (List.concat l) = (T * List.length l)%nat.
Proof.
  induction 1 as [|b l Hb Hl IH]; simpl; [lia|].
  rewrite length_app, IH, Hb. lia.
Qed.

(** An add flushes exactly when it fills the buffer. *)
Lemma add_flushes_iff (r : A) (p : Processor A) :
  accumulating T p ->
  (autoFlushes (add r p) = S (autoFlushes p) <->
   S (List.length (items p)) = T) /\
  (autoFlushes (add r p) = autoFlushes p <->
   (S (List.length (items p)) < T)%nat).
Proof.
  intros [Hth [Hlt _]]. unfold add, swapOut; simpl.
  rewrite Hth, length_app; simpl.
  destruct (Nat.leb_spec T (List.length (items p) + 1)); simpl; lia.
Qed.
End Facts.

(** C8: automatic flush at the size threshold.  Starting from an empty
    processor, add appends to the active buffer and flushes exactly when
    the buffer reaches sizeThreshold; no record is dropped or counted
    twice (the flushed buffers followed by the pending one are the records
    added, in order), every flushed buffer holds sizeThreshold records,
    and after n records there were n / sizeThreshold flushes with
    n mod sizeThreshold records pending: 250 records at threshold 100 give
    exactly 2 flushes of 100 and 50 pending. *)
Theorem batch_auto_flush :
  forall (A : Type) (T : nat) (rs : list A) (r : A),
    (1 <= T)%nat ->
    let p := addAll rs (create A T) in
    List.concat (flushed p) ++ items p = rs /\
    Forall (fun b => List.length b = T) (flushed p) /\
    autoFlushes p = (List.length rs / T)%nat /\
    List.length (flushed p) = (List.length rs / T)%nat /\
    List.length (items p) = (List.length rs mod T)%nat /\
    (autoFlushes (add r p) = S (autoFlushes p) <->
     S (List.length (items p)) = T) /\
    (autoFlushes (add r p) = autoFlushes p <->
     (S (List.length (items p)) < T)%nat) /\
    (T = 100%nat -> List.length rs = 250%nat ->
     autoFlushes p = 2%nat /\
     map (@List.length A) (flushed p) = [100%nat; 100%nat] /\
     List.length (items p) = 50%nat).
Proof.
  intros A T rs r HT p.
  destruct (addAll_accumulating HT rs (create_accumulating A HT))
    as [Hacc E].
  fold p in Hacc, E. simpl in E.
  destruct Hacc as [Hth [Hlt [Hall Hcnt]]].
  assert (List.length rs =
          (T * List.length (flushed p) + List.length (items p))%nat) as Hlen.
  { rewrite <- E at 1. rewrite length_app.
    erewrite length_concat_full by eassumption. lia. }
  assert (List.length (flushed p) = (List.length rs / T)%nat) as Hq.
  { eapply Nat.div_unique; [exact Hlt | exact Hlen]. }
  assert (List.length (items p) = (List.length rs mod T)%nat) as Hr.
  { eapply Nat.mod_unique; [exact Hlt | exact Hlen]. }
  assert (accumulating T p) as Hacc by (repeat split; assumption).
  destruct (add_flushes_iff HT r Hacc) as [Hf1 Hf2].
  split; [exact E|]. split; [exact Hall|].
  split; [rewrite Hcnt; exact Hq|].
  split; [exact Hq|]. split; [exact Hr|]. split; [exact Hf1|].
  split; [exact Hf2|].
  clearbody p. clear Hth. intros HT100 H250. subst T. rewrite H250 in Hq, Hr.
  change (250 / 100)%nat with 2%nat in Hq.
  change (250 mod 100)%nat with 50%nat in Hr.
  split; [rewrite Hcnt; exact Hq|]. split; [|exact Hr].
  destruct (flushed p) as [|b1 [|b2 [|b3 l]]]; simpl in Hq; try discriminate.
  inversion Hall as [|? ? H1 Hall']; subst.
  inversion Hall' as [|? ? H2 _]; subst.
  simpl. now rewrite H1, H2.
Qed.

Lemma batch_auto_flush_witness :
  let p := addAll (seq 0 250) (create nat 100) in
  (1 <= 100)%nat /\
  autoFlushes p = 2%nat /\
  map (@List.length nat) (flushed p) = [100%nat; 100%nat] /\
  List.length (items p) = 50%nat /\
  List.concat (flushed p) ++ items p = seq 0 250.
Proof.
  intros p.
  assert (1 <= 100)%nat as H by lia.
  destruct (@batch_auto_flush nat 100 (seq 0 250) 0%nat H)
    as [E [_ [_ [_ [_ [_ [_ Hsc]]]]]]].
  destruct (Hsc eq_refl eq_refl) as [H2 [H100 H50]].
  split; [exact H|]. split; [exact H2|]. split; [exact H100|].
  split; [exact H50 | exact E].
Defined.

End BatchProperties.

(* ================================================================== *)
(** ** Properties of hashURL                                            *)
(* ================================================================== *)

Module HashProperties.
Import Background KeyDecoding.

Lemma toInt32_range x : int32 (toInt32 x).
Proof.
  unfold int32, toInt32.
  pose proof (Z.mod_pos_bound (x + 2147483648) 4294967296). lia.
Qed.

Lemma toInt32_id x : int32 x -> toInt32 x = x.
Proof.
  unfold int32, toInt32. intros H.
  rewrite Z.mod_small by lia. lia.
Qed.

Lemma toInt32_congr a b :
  a mod 4294967296 = b mod 4294967296 -> toInt32 a = toInt32 b.
Proof.
  intros H. unfold toInt32.
  rewrite (Z.add_mod a), (Z.add_mod b), H by lia. reflexivity.
Qed.

Lemma toInt32_mod x : toInt32 x mod 4294967296 = x mod 4294967296.
Proof.
  unfold toInt32. rewrite Zminus_mod_idemp_l. f_equal. lia.
Qed.

(** One round of the loop multiplies by 31 and adds the code. *)
Lemma hash_round h c :
  toInt32 (toInt32 (Z.shiftl h 5) - h + c) = toInt32 (31 * h + c).
Proof.
  apply toInt32_congr.
  rewrite Z.shiftl_mul_pow2 by lia.
  rewrite <- Z.add_sub_swap, Zminus_mod, Zplus_mod, toInt32_mod.
  rewrite <- Zplus_mod, <- Zminus_mod. f_equal. change (2 ^ 5) with 32. lia.
Qed.

Lemma hashLoop_cons c s h :
  hashLoop (String c s) h = hashLoop s (toInt32 (31 * h + charCode c)).
Proof.
  change (hashLoop (String c s) h)
    with (hashLoop s (toInt32 (toInt32 (Z.shiftl h 5) - h + charCode c))).
  now rewrite hash_round.
Qed.

Lemma hashLoop_app s1 : forall s2 h,
  hashLoop (s1 ++ s2)%string h = hashLoop s2 (hashLoop s1 h).
Proof.
  induction s1 as [|c s1 IH]; intros s2 h; [reflexivity|].
  change ((String c s1 ++ s2)%string) with (String c (s1 ++ s2)%string).
  now rewrite !hashLoop_cons, IH.
Qed.

Lemma hashLoop_range s : forall h, int32 h -> int32 (hashLoop s h).
Proof.
  induction s as [|c s IH]; intros h Hh; [exact Hh|].
  rewrite hashLoop_cons. apply IH, toInt32_range.
Qed.

(** "Aa" and "BB" hash alike from every state of the loop. *)
Lemma hashLoop_Aa_BB h : hashLoop "Aa" h = hashLoop "BB" h.
Proof.
  rewrite !hashLoop_cons. cbn [hashLoop].
  apply toInt32_congr.
  rewrite (Zplus_mod (31 * toInt32 _)), (Zmult_mod 31 (toInt32 _)).
  rewrite toInt32_mod, <- Zmult_mod, <- Zplus_mod.
  symmetry.
  rewrite (Zplus_mod (31 * toInt32 _)), (Zmult_mod 31 (toInt32 _)).
  rewrite toInt32_mod, <- Zmult_mod, <- Zplus_mod.
  f_equal. change (charCode "A") with 65. change (charCode "a") with 97.
  change (charCode "B") with 66. lia.
Qed.

Lemma append_cancel_l (p a b : string) :
  (p ++ a)%string = (p ++ b)%string -> a = b.
Proof.
  induction p as [|c p IH]; simpl; intros H; [exact H|].
  injection H as H. auto.
Qed.

Lemma hashURL_collision p s :
  hashURL (p ++ "Aa" ++ s)%string = hashURL (p ++ "BB" ++ s)%string.
Proof.
  unfold hashURL. f_equal.
  now rewrite !hashLoop_app, hashLoop_Aa_BB.
Qed.

(** X1: the hash of hashURL is a signed 32-bit integer; every character
    multiplies the running hash by 31 and adds the character code, modulo
    2^32; hashing a concatenation continues from the hash of its first
    part. *)
Theorem hashLoop_is_31_polynomial_mod_2_32 :
  forall (s1 s2 : string) (c : ascii) (h : Z),
    hashLoop (String c s1) h = hashLoop s1 (toInt32 (31 * h + charCode c)) /\
    hashLoop (s1 ++ s2)%string h = hashLoop s2 (hashLoop s1 h) /\
    int32 (hashLoop s1 0) /\
    int32 (hashLoop (String c s1) h).
Proof.
  intros s1 s2 c h. split; [apply hashLoop_cons|].
  split; [apply hashLoop_app|]. split.
  - apply hashLoop_range. unfold int32. lia.
  - rewrite hashLoop_cons. apply hashLoop_range, toInt32_range.
Qed.

(** X2: two URLs that differ by "Aa" against "BB" at some place have the
    same cache key, so whatever one of them finds in the cache the other
    finds too: a fresh result cached for the first is returned for the
    second without a request. *)
Theorem colliding_urls_share_cache_entry :
  forall (p s : string) (w : World) (c : Cache),
    let u1 := (p ++ "Aa" ++ s)%string in
    let u2 := (p ++ "BB" ++ s)%string in
    u1 <> u2 /\
    hashURL u1 = hashURL u2 /\
    (forall now, cachedResult 300000 now (hashURL u2) c =
                 cachedResult 300000 now (hashURL u1) c) /\
    (forall r, cachedResult 300000 (now_lookup w) (hashURL u1) c = Some r ->
               scanURL w u2 c = (c, Return r)).
Proof.
  intros p s w c u1 u2.
  assert (hashURL u1 = hashURL u2) as E by apply hashURL_collision.
  split; [|split; [exact E|split]].
  - unfold u1, u2. intros H. apply append_cancel_l in H.
    discriminate H.
  - intros now. now rewrite E.
  - intros r Hr. unfold scanURL, scanURL_with. rewrite <- E, Hr. reflexivity.
Qed.

(** *** The key determines the hash *)

Lemma digit36_not_minus d : digit36 d <> "-"%char.
Proof.
  unfold digit36. destruct (Z.to_nat d) as [|n]; [discriminate|].
  do 35 (destruct n as [|n]; [discriminate|]).
  discriminate.
Qed.

Lemma digitValue_digit36 d : 0 <= d < 36 -> digitValue (digit36 d) = d.
Proof.
  intros H. rewrite <- (Z2Nat.id d) at 2 by lia.
  assert (Z.to_nat d < 36)%nat as Hn by lia.
  unfold digit36. destruct (Z.to_nat d) as [|n]; [reflexivity|].
  do 35 (destruct n as [|n]; [reflexivity|]).
  lia.
Qed.

Lemma parseDigits_digits36 fuel : forall n acc,
  0 <= n < 36 ^ Z.of_nat fuel ->
  parseDigits (digits36 fuel n acc) 0 = parseDigits acc n.
Proof.
  induction fuel as [|fuel IH]; intros n acc Hn.
  - simpl in *. replace n with 0 by lia. reflexivity.
  - rewrite Nat2Z.inj_succ, Z.pow_succ_r in Hn by lia.
    pose proof (Z.mod_pos_bound n 36 ltac:(lia)) as Hm.
    pose proof (Z.div_mod n 36 ltac:(lia)) as Hdm.
    cbn [digits36]. cbv zeta.
    destruct (Z.eqb_spec (n / 36) 0) as [Hz|Hnz].
    + cbn [parseDigits]. rewrite digitValue_digit36 by lia.
      f_equal. lia.
    + rewrite IH.
      * cbn [parseDigits]. rewrite digitValue_digit36 by lia. f_equal. lia.
      * split; [apply Z.div_pos; lia|].
        apply Z.div_lt_upper_bound; lia.
Qed.

Lemma digits36_keeps_digit fuel : forall n acc,
  startsWithDigit acc -> startsWithDigit (digits36 fuel n acc).
Proof.
  induction fuel as [|fuel IH]; intros n acc H; [exact H|].
  cbn [digits36]. cbv zeta.
  destruct (n / 36 =? 0); [|apply IH]; eexists; eexists; reflexivity.
Qed.

Lemma digits36_startsWithDigit fuel n acc :
  startsWithDigit (digits36 (S fuel) n acc).
Proof.
  cbn [digits36]. cbv zeta.
  destruct (n / 36 =? 0); [|apply digits36_keeps_digit];
    eexists; eexists; reflexivity.
Qed.

Lemma parseInt36_digits c rest :
  c <> "-"%char -> parseInt36 (String c rest) = parseDigits (String c rest) 0.
Proof.
  intros H. unfold parseInt36.
  destruct c as [[] [] [] [] [] [] [] []]; try reflexivity.
  now contradiction H.
Qed.

Lemma parseInt36_toString36 n :
  - 36 ^ 7 < n < 36 ^ 7 -> parseInt36 (toString36 n) = n.
Proof.
  intros Hn. unfold toString36.
  destruct (Z.ltb_spec n 0) as [Hneg|Hpos].
  - cbn [parseInt36]. rewrite parseDigits_digits36.
    + simpl. lia.
    + change (Z.of_nat 7) with 7. lia.
  - destruct (digits36_startsWithDigit 6 n "") as [d [rest E]].
    rewrite E, parseInt36_digits by apply digit36_not_minus.
    rewrite <- E, parseDigits_digits36; [reflexivity|].
    change (Z.of_nat 7) with 7. lia.
Qed.

Lemma hashURL_injective_on_hash u1 u2 :
  hashURL u1 = hashURL u2 -> hashLoop u1 0 = hashLoop u2 0.
Proof.
  unfold hashURL. intros H. apply (f_equal parseInt36) in H.
  assert (forall u, - 36 ^ 7 < hashLoop u 0 < 36 ^ 7) as R.
  { intros u. assert (int32 (hashLoop u 0)) as Hr
      by (apply hashLoop_range; unfold int32; lia).
    unfold int32 in Hr. change (36 ^ 7) with 78364164096. lia. }
  now rewrite !parseInt36_toString36 in H by apply R.
Qed.

(** X3: the base-36 key loses nothing of the hash: reading the key of a
    32-bit integer back gives the integer, so two URLs have the same cache
    key exactly when their 32-bit hashes are equal. *)
Theorem cache_key_determines_hash :
  forall (u1 u2 : string) (n : Z),
    (hashURL u1 = hashURL u2 <-> hashLoop u1 0 = hashLoop u2 0) /\
    (int32 n -> parseInt36 (toString36 n) = n) /\
    parseInt36 (hashURL u1) = hashLoop u1 0.
Proof.
  intros u1 u2 n. split; [split|split].
  - apply hashURL_injective_on_hash.
  - unfold hashURL. now intros ->.
  - unfold int32. intros H. apply parseInt36_toString36.
    change (36 ^ 7) with 78364164096. lia.
  - unfold hashURL. apply parseInt36_toString36.
    assert (int32 (hashLoop u1 0)) as Hr
      by (apply hashLoop_range; unfold int32; lia).
    unfold int32 in Hr. change (36 ^ 7) with 78364164096. lia.
Qed.

End HashProperties.

(* ================================================================== *)
(** ** A scanned URL is served from the cache                           *)
(* ================================================================== *)

Module CacheRoundTrip.
Import Background JsMapFacts ScanCacheFacts ScanCacheProperties.

(** The sort leaves a greatest last element last. *)
Lemma sort_insert_keeps_last (a x : string * CacheEntry) l :
  timestamp (snd a) <= timestamp (snd x) ->
  exists l', sort_insert byTimestamp a (l ++ [x]) = l' ++ [x].
Proof.
  intros Hle. induction l as [|y l [l' IH]]; simpl.
  - unfold byTimestamp at 1.
    destruct (Z.leb_spec (timestamp (snd a) - timestamp (snd x)) 0); [|lia].
    now exists [a].
  - destruct (byTimestamp a y <=? 0).
    + now exists (a :: y :: l).
    + rewrite IH. now exists (y :: l').
Qed.

Lemma array_sort_keeps_last (x : string * CacheEntry) l :
  (forall y, In y l -> timestamp (snd y) <= timestamp (snd x)) ->
  exists l', array_sort byTimestamp (l ++ [x]) = l' ++ [x].
Proof.
  induction l as [|a l IH]; intros H; simpl.
  - now exists [].
  - destruct IH as [l' E]; [intros y Hy; apply H; now right|].
    rewrite E. apply sort_insert_keeps_last. apply H. now left.
Qed.

Lemma set_absent (c : Cache) k e :
  ~ In k (JsMap.keys c) -> JsMap.set k e c = c ++ [(k, e)].
Proof.
  induction c as [|[k0 e0] c IH]; simpl; intros H; [reflexivity|].
  destruct (String.eqb_spec k k0) as [->|Hk]; [tauto|].
  rewrite IH by tauto. reflexivity.
Qed.

Lemma get_delete_other (c : Cache) k k0 :
  k <> k0 -> JsMap.get k (JsMap.delete k0 c) = JsMap.get k c.
Proof.
  intros Hne. unfold JsMap.delete.
  induction c as [|[k1 e1] c IH]; simpl; [reflexivity|].
  destruct (String.eqb_spec k0 k1) as [->|H01]; simpl.
  - destruct (String.eqb_spec k k1); [congruence | exact IH].
  - destruct (String.eqb_spec k k1); [reflexivity | exact IH].
Qed.

Lemma get_deleteOldest n : forall entries (c : Cache) k,
  ~ In k (map fst (firstn n entries)) ->
  JsMap.get k (fst (deleteOldest n entries c)) = JsMap.get k c.
Proof.
  induction n as [|n IH]; intros entries c k H; [reflexivity|].
  destruct entries as [|e rest]; [reflexivity|].
  rewrite deleteOldest_step, IH.
  - apply get_delete_other. intros E. apply H. simpl. now left.
  - intros Hin. apply H. simpl. now right.
Qed.

(** With a clock that did not run backwards the entry just written
    survives the clearing. *)
Lemma storeResult_keeps_new k e (c : Cache) :
  NoDup (JsMap.keys c) ->
  (JsMap.size c <= 1000)%nat ->
  (forall y, In y c -> timestamp (snd y) <= timestamp e) ->
  JsMap.get k (fst (storeResult 1000 500 k e c)) = Some e /\
  snd (storeResult 1000 500 k e c) = Return tt.
Proof.
  intros Hnd Hsz Hclock.
  destruct (Nat.leb_spec (JsMap.size (JsMap.set k e c)) 1000) as [Hle|Hgt].
  - rewrite storeResult_no_clear by exact Hle. simpl.
    split; [apply get_set_same | reflexivity].
  - assert (~ In k (JsMap.keys c)) as Hnew.
    { intros Hin. rewrite size_set_resident in Hgt by exact Hin. lia. }
    split; [|apply storeResult_clears; auto; lia].
    rewrite storeResult_unfold. cbv zeta.
    destruct (Nat.ltb_spec 1000 (JsMap.size (JsMap.set k e c))); [|lia].
    rewrite get_deleteOldest; [apply get_set_same|].
    assert (NoDup (JsMap.keys (JsMap.set k e c))) as Hnd1
      by now apply NoDup_keys_set.
    pose proof (array_sort_perm byTimestamp
                  (JsMap.entries (JsMap.set k e c))) as Hperm.
    unfold JsMap.entries in *. rewrite set_absent in * by exact Hnew.
    destruct (@array_sort_keeps_last (k, e) c Hclock) as [l' E].
    rewrite E in *.
    assert (List.length l' = List.length c) as Hlen.
    { apply Permutation_length in Hperm. rewrite !length_app in Hperm.
      simpl in Hperm. lia. }
    assert (NoDup (map fst (l' ++ [(k, e)]))) as Hnd2.
    { eapply Permutation_NoDup; [|exact Hnd1].
      apply Permutation_map. now symmetry. }
    rewrite map_app in Hnd2. simpl in Hnd2.
    apply NoDup_remove_2 in Hnd2. rewrite app_nil_r in Hnd2.
    unfold JsMap.size in Hgt. rewrite length_app in Hgt. simpl in Hgt.
    rewrite firstn_app.
    replace (500 - List.length l')%nat with 0%nat by lia.
    rewrite firstn_O, app_nil_r.
    intros Hin. apply Hnd2. apply in_map_iff in Hin.
    destruct Hin as [y [Hy Hin]]. apply in_map_iff. exists y.
    split; [exact Hy|]. eapply In_firstn. exact Hin.
Qed.

(** X4: a scan that misses the cache and gets an answer from the back end
    returns that answer and caches it: as long as the clock did not run
    backwards (no resident entry is younger than the write), every scan
    of the same URL in the next 5 minutes returns the same answer from
    the cache, whatever the back end does then, and leaves the cache as
    it is. *)
Theorem scanned_url_is_served_from_cache :
  forall (scans : list (World * string)) (w w' : World) (u : string)
         (st : Z) (r : ScanResult),
    let c := scanAll scans (JsMap.empty CacheEntry) in
    cachedResult 300000 (now_lookup w) (hashURL u) c = None ->
    backend w = FetchResponds true st (JsonValue r) ->
    (forall y, In y c -> timestamp (snd y) <= now_store w) ->
    now_lookup w' - now_store w < 300000 ->
    snd (scanURL w u c) = Return r /\
    JsMap.get (hashURL u) (fst (scanURL w u c)) = Some (mkEntry r (now_store w)) /\
    scanURL w' u (fst (scanURL w u c)) = (fst (scanURL w u c), Return r).
Proof.
  intros scans w w' u st r c Hmiss Hback Hclock Hfresh.
  assert (NoDup (JsMap.keys c)) as Hnd by (apply scanAll_NoDup; constructor).
  assert (JsMap.size c <= 1000)%nat as Hsz
    by (apply scanAll_size_bound; simpl; lia).
  destruct (@storeResult_keeps_new (hashURL u) (mkEntry r (now_store w)) c
              Hnd Hsz Hclock) as [Hget Hret].
  assert (scanURL w u c =
          (fst (storeResult 1000 500 (hashURL u) (mkEntry r (now_store w)) c),
           Return r)) as Hscan.
  { unfold scanURL, scanURL_with. rewrite Hmiss.
    unfold try_catch, requestAndStore, bind, fetch, json, ret.
    rewrite Hback. simpl.
    destruct (storeResult 1000 500 (hashURL u) (mkEntry r (now_store w)) c)
      as [c' o]. simpl in Hret. subst o. reflexivity. }
  rewrite Hscan. simpl. split; [reflexivity|]. split; [exact Hget|].
  unfold scanURL. apply scanURL_hit.
  apply cachedResult_spec. exists (mkEntry r (now_store w)).
  split; [exact Hget|]. split; [reflexivity | exact Hfresh].
Qed.

Lemma scanned_url_is_served_from_cache_witness :
  let w := Scenario.answers 1000 7 in
  let w' := Scenario.outage 200000 in
  let u := "https://example.com/login" in
  snd (scanURL w u []) = Return (Scenario.verdict 7) /\
  scanURL w' u (fst (scanURL w u [])) =
    (fst (scanURL w u []), Return (Scenario.verdict 7)).
Proof.
  intros w w' u.
  destruct (@scanned_url_is_served_from_cache [] w w' u 200
              (Scenario.verdict 7)) as [H1 [_ H3]].
  - reflexivity.
  - reflexivity.
  - intros y [].
  - simpl. lia.
  - split; [exact H1 | exact H3].
Defined.

Lemma In_set (c : Cache) k e y :
  In y (JsMap.set k e c) -> y = (k, e) \/ In y c.
Proof.
  induction c as [|[k0 e0] c IH]; simpl.
  - intros [<-|[]]. now left.
  - destruct (String.eqb_spec k k0) as [->|Hk]; simpl.
    + intros [<-|H]; [now left | right; now right].
    + intros [<-|H]; [right; now left|].
      destruct (IH H) as [->|Hin]; [now left | right; now right].
Qed.

(** X19: on every cache reachable by scans, a scan that misses the cache
    and gets an answer from the back end returns that answer: the
    clearing of old entries never throws there.  The cache it leaves
    holds at most 1000 entries, each of them either the entry of this
    scan or an entry that was there before. *)
Theorem answered_scan_returns_the_answer :
  forall (scans : list (World * string)) (w : World) (u : string) (st : Z)
         (r : ScanResult),
    let c := scanAll scans (JsMap.empty CacheEntry) in
    cachedResult 300000 (now_lookup w) (hashURL u) c = None ->
    backend w = FetchResponds true st (JsonValue r) ->
    snd (scanURL w u c) = Return r /\
    (JsMap.size (fst (scanURL w u c)) <= 1000)%nat /\
    (forall y, In y (fst (scanURL w u c)) ->
               y = (hashURL u, mkEntry r (now_store w)) \/ In y c).
Proof.
  intros scans w u st r c Hmiss Hback.
  assert (NoDup (JsMap.keys c)) as Hnd by (apply scanAll_NoDup; constructor).
  assert (JsMap.size c <= 1000)%nat as Hsz
    by (apply scanAll_size_bound; simpl; lia).
  set (e := mkEntry r (now_store w)).
  assert (snd (storeResult 1000 500 (hashURL u) e c) = Return tt) as Hret.
  { destruct (Nat.leb_spec (JsMap.size (JsMap.set (hashURL u) e c)) 1000).
    - now rewrite storeResult_no_clear.
    - apply storeResult_clears; auto; lia. }
  assert (scanURL w u c =
          (fst (storeResult 1000 500 (hashURL u) e c), Return r)) as Hscan.
  { unfold scanURL, scanURL_with. rewrite Hmiss.
    unfold try_catch, requestAndStore, bind, fetch, json, ret.
    rewrite Hback. simpl. fold e.
    destruct (storeResult 1000 500 (hashURL u) e c) as [c' o].
    simpl in Hret. subst o. reflexivity. }
  rewrite Hscan. simpl. split; [reflexivity|]. split.
  - apply storeResult_size_bound; [lia | exact Hsz].
  - intros y Hy. apply storeResult_retains in Hy. now apply In_set.
Qed.

Lemma answered_scan_returns_the_answer_witness :
  snd (scanURL (Scenario.answers 5 9) "http://example.com/" [])
    = Return (Scenario.verdict 9).
Proof.
  apply (@answered_scan_returns_the_answer [] (Scenario.answers 5 9)
           "http://example.com/" 200 (Scenario.verdict 9));
    reflexivity.
Defined.

End CacheRoundTrip.

(* ================================================================== *)
(** ** Settings, "Proceed Anyway" and the popup of the classic extension *)
(* ================================================================== *)

Module ClassicExtensionProperties.
Import Background BackgroundScript.

Lemma spread_asObject base s : spread base (Some (asObject s)) = s.
Proof. destruct s; reflexivity. Qed.

Lemma spread_idempotent base patch :
  spread (spread base patch) patch = spread base patch.
Proof.
  destruct patch as [[b s a t]|]; [|reflexivity].
  destruct b, s, a, t; reflexivity.
Qed.

Lemma orElse_idempotent (A : Type) (o : option A) (d : A) :
  orElse o (orElse o d) = orElse o d.
Proof. destruct o; reflexivity. Qed.

(** X5: update_settings merges the request into the settings, and the
    merge is stable: get_settings then reports the merged settings, a
    second identical request changes nothing, the scan cache is not
    touched, and the object written to the storage makes onInstalled
    restore the same isEnabled and userSettings from any earlier
    state. *)
Theorem update_settings_is_stable_and_persistent :
  forall (w w' : World) (fb fb' : FeedbackOutcome) (st st0 : State)
         (sync : SyncStorage) (newEnabled : option bool)
         (patch : option SettingsPatch),
    let x := onMessage w fb (update_settings newEnabled patch) st sync in
    let st1 := stateAfter x in
    replyOf (onMessage w' fb' get_settings st1 (storageAfter x)) =
      SettingsReply (orElse newEnabled (isEnabled st))
                    (spread (userSettings st) patch) /\
    onMessage w' fb' (update_settings newEnabled patch) st1 (storageAfter x)
      = x /\
    scanCache st1 = scanCache st /\
    isEnabled (onInstalled (storageAfter x) st0) = isEnabled st1 /\
    userSettings (onInstalled (storageAfter x) st0) = userSettings st1 /\
    callsOf x = [SetBadgeText (if isEnabled st1 then "" else "OFF")].
Proof.
  intros w w' fb fb' st st0 sync newEnabled patch x st1.
  subst st1 x.
  cbn [onMessage stateAfter storageAfter replyOf callsOf fst snd onInstalled
       isEnabled userSettings scanCache stored_isEnabled stored_userSettings
       orElse updateBadge].
  rewrite spread_idempotent, orElse_idempotent, spread_asObject.
  repeat split; reflexivity.
Qed.

(** X6: while protection is disabled, or for a navigation that is not
    the main frame, the listener does nothing: it makes no call, does not
    scan (the cache stays), and does not use up a "Proceed Anyway" flag;
    this is the state update_settings leaves when the popup switches
    protection off. *)
Theorem disabled_or_subframe_navigation_is_inert :
  forall (w w0 : World) (fb : FeedbackOutcome) (st : State)
         (sync : SyncStorage) (patch : option SettingsPatch)
         (proceed : list Z) (frameId tabId : Z) (u : string),
    let off := stateAfter
                 (onMessage w0 fb (update_settings (Some false) patch) st sync)
    in
    onBeforeNavigateStored off proceed frameId tabId w u = (off, proceed, []) /\
    (frameId <> 0 ->
     onBeforeNavigateStored st proceed frameId tabId w u = (st, proceed, [])).
Proof.
  intros w w0 fb st sync patch proceed frameId tabId u off. split.
  - reflexivity.
  - intros Hf. unfold onBeforeNavigateStored.
    destruct (Z.eqb_spec frameId 0) as [E|_]; [contradiction|].
    now rewrite orb_true_r.
Qed.

Lemma disabled_or_subframe_navigation_is_inert_witness :
  onBeforeNavigateStored initialState [7] 3 7
    (Scenario.answers 0 1) "http://example.com/" = (initialState, [7], []).
Proof.
  apply (@disabled_or_subframe_navigation_is_inert
           (Scenario.answers 0 1) (Scenario.answers 0 1) FeedbackRejects
           initialState (mkSync None None) None [7] 3 7 "http://example.com/").
  discriminate.
Defined.

Lemma existsb_eqb_cons tab l : existsb (Z.eqb tab) (tab :: l) = true.
Proof. simpl. now rewrite Z.eqb_refl. Qed.

Lemma existsb_filter_out tab l :
  existsb (Z.eqb tab) (filter (fun t => negb (t =? tab)) l) = false.
Proof.
  induction l as [|t l IH]; simpl; [reflexivity|].
  destruct (Z.eqb_spec t tab) as [->|Hne]; simpl; [exact IH|].
  destruct (Z.eqb_spec tab t); [congruence | exact IH].
Qed.

Lemma filter_out_idempotent tab l :
  filter (fun t => negb (t =? tab)) (filter (fun t => negb (t =? tab)) l)
  = filter (fun t => negb (t =? tab)) l.
Proof.
  induction l as [|t l IH]; simpl; [reflexivity|].
  destruct (negb (t =? tab)) eqn:E; simpl; [rewrite E|]; now rewrite IH.
Qed.

Lemma state_eta st : mkState (isEnabled st) (userSettings st) (scanCache st) = st.
Proof. destruct st; reflexivity. Qed.

(** X7: "Proceed Anyway" is a one-shot bypass bound to the tab, not to the
    URL.  After the button is pressed for a tab, the next main-frame
    navigation of that tab, to any URL and whatever the back end would
    say, is let through without a scan or a call, and removes the flag;
    the navigation after it is scanned like any other; navigations of
    other tabs leave the flag in place. *)
Theorem proceed_anyway_skips_one_navigation :
  forall (st : State) (p : WarningScript.Params) (proceed : list Z)
         (tab other : Z) (w1 w2 w3 : World) (u1 u2 u3 : string),
    isEnabled st = true ->
    WarningScript.blockedTabId p = Some tab ->
    other <> tab ->
    let flags := fst (WarningScript.proceedAnyway p proceed) in
    let rest := filter (fun t => negb (t =? tab)) proceed in
    snd (WarningScript.proceedAnyway p proceed) =
      [WarningScript.TabsUpdate tab (WarningScript.blockedUrl p);
       WarningScript.CloseWarningTab] /\
    onBeforeNavigateStored st flags 0 tab w1 u1 = (st, rest, []) /\
    onBeforeNavigateStored st rest 0 tab w2 u2 =
      (let '(c, calls) :=
         onBeforeNavigate true (userSettings st) 0 false w2 u2 (scanCache st)
       in (mkState true (userSettings st) c, rest, calls)) /\
    existsb (Z.eqb tab)
      (snd (fst (onBeforeNavigateStored st flags 0 other w3 u3))) = true.
Proof.
  intros st p proceed tab other w1 w2 w3 u1 u2 u3 Hen Htab Hother flags rest.
  unfold flags, WarningScript.proceedAnyway. rewrite Htab. simpl fst. simpl snd.
  fold rest.
  split; [reflexivity|]. split; [|split].
  - unfold onBeforeNavigateStored. rewrite Hen, existsb_eqb_cons. simpl.
    rewrite Z.eqb_refl. simpl. fold rest. unfold rest.
    rewrite filter_out_idempotent. now rewrite <- Hen at 1; rewrite state_eta.
  - unfold onBeforeNavigateStored. rewrite Hen. unfold rest.
    rewrite existsb_filter_out. simpl.
    destruct (onBeforeNavigate true (userSettings st) 0 false w2 u2
                (scanCache st)); reflexivity.
  - unfold onBeforeNavigateStored. rewrite Hen. simpl orb. cbv iota.
    destruct (existsb (Z.eqb other) (tab :: rest)) eqn:Eo;
      destruct (onBeforeNavigate true (userSettings st) 0 _ w3 u3
                  (scanCache st)); simpl.
    + destruct (Z.eqb_spec tab other); [congruence|]. simpl.
      now rewrite Z.eqb_refl.
    + now rewrite Z.eqb_refl.
Qed.

Lemma proceed_anyway_skips_one_navigation_witness :
  let p := WarningScript.mkParams "http://phish.example/" "High" (Some 7) in
  let phishing :=
    mkWorld 0 (FetchResponds true 200
                 (JsonValue (mkScanResult None true 1%Q "High" []))) 0 in
  onBeforeNavigateStored initialState
    (fst (WarningScript.proceedAnyway p [])) 0 7 phishing
    "http://phish.example/" = (initialState, [], []) /\
  snd (onBeforeNavigateStored initialState [] 0 7 phishing
         "http://phish.example/") =
    [TabsCreateWarning "http://phish.example/" "High"; SetBadgeText "!"].
Proof.
  intros p phishing.
  destruct (@proceed_anyway_skips_one_navigation initialState p [] 7 8
              phishing phishing phishing "http://phish.example/"
              "http://phish.example/" "http://phish.example/"
              eq_refl eq_refl ltac:(discriminate)) as [_ [H1 [H2 _]]].
  split; [exact H1|]. simpl in H2. rewrite H2. reflexivity.
Defined.



End ClassicExtensionProperties.

(* ================================================================== *)
(** ** Whitelist, statistics and labels of the React extension          *)
(* ================================================================== *)

Module ReactExtensionProperties.
Import ServiceWorker PopupActions.

Lemma includes_In d l : includes d l = true <-> In d l.
Proof.
  unfold includes. rewrite existsb_exists. split.
  - intros [x [Hx E]]. apply String.eqb_eq in E. now subst.
  - intros H. exists d. split; [exact H | apply String.eqb_refl].
Qed.

Lemma includes_false d l : includes d l = false <-> ~ In d l.
Proof.
  rewrite <- includes_In. destruct (includes d l); split; congruence.
Qed.

Lemma NoDup_snoc (d : string) l : NoDup l -> ~ In d l -> NoDup (l ++ [d]).
Proof.
  intros Hl Hd. apply NoDup_app; [exact Hl | repeat constructor; simpl; tauto|].
  intros x Hx [<-|[]]. contradiction.
Qed.

Lemma addToWhitelist_NoDup d l : NoDup l -> NoDup (addToWhitelist d l).
Proof.
  intros H. unfold addToWhitelist.
  destruct (negb (String.eqb d "")); simpl; [|exact H].
  destruct (includes d l) eqn:E; simpl; [exact H|].
  apply NoDup_snoc; [exact H | now apply includes_false].
Qed.

Lemma removeFromWhitelist_In d d' l :
  In d' (removeFromWhitelist d l) <-> In d' l /\ d' <> d.
Proof.
  unfold removeFromWhitelist. rewrite filter_In.
  destruct (String.eqb_spec d' d); simpl; intuition congruence.
Qed.

Lemma removeFromWhitelist_NoDup d l :
  NoDup l -> NoDup (removeFromWhitelist d l).
Proof. apply NoDup_filter. Qed.

Lemma removeFromWhitelist_absent d l :
  ~ In d l -> removeFromWhitelist d l = l.
Proof.
  unfold removeFromWhitelist. induction l as [|x l IH]; simpl; [reflexivity|].
  intros H. destruct (String.eqb_spec x d) as [->|_]; [tauto|].
  simpl. f_equal. apply IH. tauto.
Qed.

Lemma addDomain_NoDup trim lower d l :
  NoDup l -> NoDup (WhitelistManager.addDomain trim lower d l).
Proof.
  intros H. unfold WhitelistManager.addDomain.
  destruct (String.eqb (trim d) ""); [exact H|].
  destruct (includes (lower (trim d)) l) eqn:E; simpl; [exact H|].
  apply NoDup_snoc; [exact H | now apply includes_false].
Qed.

Lemma applyWhitelistOps_NoDup trim lower ops : forall l,
  NoDup l -> NoDup (applyWhitelistOps trim lower ops l).
Proof.
  induction ops as [|op ops IH]; intros l H; [exact H|].
  simpl. apply IH. destruct op; simpl.
  - now apply addToWhitelist_NoDup.
  - now apply removeFromWhitelist_NoDup.
  - now apply addDomain_NoDup.
  - now apply removeFromWhitelist_NoDup.
Qed.

(** X9: the stored whitelist never holds a domain twice, whatever
    sequence of additions and removals the popup and the whitelist
    manager apply to it; a non-empty domain is listed after it is added
    and no longer listed after it is removed; adding a listed domain
    changes nothing, and adding an unlisted domain and removing it again
    gives the list back. *)
Theorem whitelist_is_a_set :
  forall (trim toLowerCase : string -> string) (ops : list WhitelistOp)
         (d : string),
    let l := applyWhitelistOps trim toLowerCase ops [] in
    NoDup l /\
    (d <> "" -> includes d (addToWhitelist d l) = true) /\
    includes d (removeFromWhitelist d l) = false /\
    (includes d l = true -> addToWhitelist d l = l) /\
    (includes d l = false ->
     removeFromWhitelist d (addToWhitelist d l) = l) /\
    (forall d', d' <> d ->
       includes d' (removeFromWhitelist d l) = includes d' l).
Proof.
  intros trim toLowerCase ops d l.
  assert (NoDup l) as Hl by (apply applyWhitelistOps_NoDup; constructor).
  split; [exact Hl|]. split; [|split; [|split; [|split]]].
  - intros Hd. unfold addToWhitelist.
    destruct (String.eqb_spec d "") as [E|_]; [contradiction|]. simpl.
    destruct (includes d l) eqn:E; simpl; [exact E|].
    apply includes_In, in_or_app. right. now left.
  - apply includes_false. rewrite removeFromWhitelist_In. tauto.
  - intros H. unfold addToWhitelist. rewrite H.
    now rewrite andb_false_r.
  - intros H. unfold addToWhitelist. rewrite H.
    destruct (negb (String.eqb d "")); simpl.
    + unfold removeFromWhitelist. rewrite filter_app. simpl.
      rewrite String.eqb_refl. simpl. rewrite app_nil_r.
      apply removeFromWhitelist_absent. now apply includes_false.
    + apply removeFromWhitelist_absent. now apply includes_false.
  - intros d' Hne.
    destruct (includes d' l) eqn:E.
    + apply includes_In. apply removeFromWhitelist_In.
      split; [now apply includes_In | exact Hne].
    + apply includes_false. rewrite removeFromWhitelist_In.
      apply includes_false in E. tauto.
Qed.

Lemma whitelist_is_a_set_witness :
  let l := applyWhitelistOps (fun s => s) Background.toLowerCase
             [PopupAdd "a.example"; ManagerAdd "B.example";
              PopupAdd "a.example"; PopupRemove "c.example"] [] in
  l = ["a.example"; "b.example"] /\
  includes "c.example" (addToWhitelist "c.example" l) = true /\
  removeFromWhitelist "c.example" (addToWhitelist "c.example" l) = l.
Proof.
  intros l.
  destruct (@whitelist_is_a_set (fun s => s) Background.toLowerCase
              [PopupAdd "a.example"; ManagerAdd "B.example";
               PopupAdd "a.example"; PopupRemove "c.example"] "c.example")
    as [_ [Hadd [_ [_ [Hrt _]]]]].
  split; [reflexivity|]. split.
  - apply Hadd. discriminate.
  - apply Hrt. reflexivity.
Defined.

(** X10: the onCommitted listener leaves the storage alone and makes no
    call when the frame is not the main frame, when protection is
    switched off, when the URL is internal, or when the domain is on the
    whitelist, in particular for a domain just added by addToWhitelist,
    whatever the back end would answer; for a domain removed from the
    whitelist a phishing verdict on an ordinary URL redirects the tab to
    the warning page under the default settings. *)
Theorem whitelisted_navigation_is_not_scanned :
  forall (toDateString : Z -> string) (frameId : Z)
         (settings : option Settings) (whitelist : list string)
         (u domain : string) (f : FetchOutcome) (clock : Clock)
         (local : LocalStorage),
    (domain <> "" ->
     onCommitted toDateString frameId settings
       (Some (addToWhitelist domain whitelist)) u domain f clock local
     = (local, [])) /\
    (frameId <> 0 ->
     onCommitted toDateString frameId settings (Some whitelist) u domain f
       clock local = (local, [])) /\
    (forall s, enabled s = false ->
     onCommitted toDateString frameId (Some s) (Some whitelist) u domain f
       clock local = (local, [])) /\
    (String.prefix "chrome://" u = true \/
     String.prefix "chrome-extension://" u = true ->
     onCommitted toDateString frameId settings (Some whitelist) u domain f
       clock local = (local, [])) /\
    (forall st r,
       f = FetchResponds true st (JsonValue r) -> is_phishing r = true ->
       String.prefix "chrome://" u = false ->
       String.prefix "chrome-extension://" u = false ->
       snd (onCommitted toDateString 0 None
              (Some (removeFromWhitelist domain whitelist)) u domain f clock
              local) = [TabsUpdateWarning u]).
Proof.
  intros toDateString frameId settings whitelist u domain f clock local.
  split; [|split; [|split; [|split]]].
  - intros Hd. unfold onCommitted.
    assert (existsb (String.eqb domain) (addToWhitelist domain whitelist)
            = true) as Hin.
    { change (includes domain (addToWhitelist domain whitelist) = true).
      unfold addToWhitelist.
      destruct (String.eqb_spec domain "") as [E|_]; [contradiction|]. simpl.
      destruct (includes domain whitelist) eqn:E; simpl; [exact E|].
      apply includes_In, in_or_app. right. now left. }
    rewrite Hin.
    repeat match goal with
           | |- context [if ?b then _ else _] => destruct b
           end; reflexivity.
  - intros Hf. unfold onCommitted.
    destruct (Z.eqb_spec frameId 0); [contradiction | reflexivity].
  - intros s Hs. unfold onCommitted. rewrite Hs.
    destruct (negb (frameId =? 0)); reflexivity.
  - intros Hu. unfold onCommitted.
    assert (String.prefix "chrome://" u
            || String.prefix "chrome-extension://" u = true) as E
      by (destruct Hu as [-> | ->]; [reflexivity | apply orb_true_r]).
    rewrite E.
    repeat match goal with
           | |- context [if ?b then _ else _] => destruct b
           end; reflexivity.
  - intros st r -> Hr Hc He. unfold onCommitted.
    assert (existsb (String.eqb domain) (removeFromWhitelist domain whitelist)
            = false) as Hout.
    { change (includes domain (removeFromWhitelist domain whitelist) = false).
      apply includes_false. rewrite removeFromWhitelist_In. tauto. }
    rewrite Hc, He, Hout. simpl. unfold reactToScan. now rewrite Hr.
Qed.

Lemma whitelisted_navigation_is_not_scanned_witness :
  let phishing :=
    FetchResponds true 200 (JsonValue (mkScanResult None true 1%Q "High" [])) in
  let local := mkLocal None None None in
  onCommitted Scenario.utcDateString 0 None
    (Some (addToWhitelist "shop.example" [])) "http://shop.example/"
    "shop.example" phishing (mkClock 1 2 3) local = (local, []) /\
  snd (onCommitted Scenario.utcDateString 0 None
         (Some (removeFromWhitelist "shop.example"
                  (addToWhitelist "shop.example" [])))
         "http://shop.example/" "shop.example" phishing (mkClock 1 2 3) local)
  = [TabsUpdateWarning "http://shop.example/"].
Proof.
  intros phishing local.
  destruct (@whitelisted_navigation_is_not_scanned Scenario.utcDateString 0
              None [] "http://shop.example/" "shop.example" phishing
              (mkClock 1 2 3) local) as [Hin _].
  destruct (@whitelisted_navigation_is_not_scanned Scenario.utcDateString 0
              None (addToWhitelist "shop.example" [])
              "http://shop.example/" "shop.example" phishing
              (mkClock 1 2 3) local) as [_ [_ [_ [_ Hout]]]].
  split.
  - apply Hin. discriminate.
  - eapply Hout; reflexivity.
Defined.

End ReactExtensionProperties.

(* ================================================================== *)
(** ** Statistics over a day, history view, time labels                 *)
(* ================================================================== *)

Module StatisticsProperties.
Import ServiceWorker.

Section Day.
Variable toDateString : Z -> string.

Lemma updateStats_threats now_today now_stamp r stored :
  threatsBlocked (updateStats toDateString now_today now_stamp r stored) =
  threatsBlocked (currentStats stored) + (if is_phishing r then 1 else 0).
Proof.
  unfold updateStats, currentStats. simpl.
  destruct stored; destruct (is_phishing r); simpl; lia.
Qed.

Lemma updateStats_scans now_today now_stamp r stored :
  scansToday (updateStats toDateString now_today now_stamp r stored) =
  countOfDay toDateString (toDateString now_today) stored + 1.
Proof.
  unfold updateStats, countOfDay, currentStats, sameDate. simpl.
  destruct stored as [s|]; simpl; [|reflexivity].
  destruct (lastScan s) as [t|]; simpl; [|reflexivity].
  destruct (String.eqb (toDateString t) (toDateString now_today));
    reflexivity.
Qed.

Lemma updateStatsAll_threats scans : forall stored,
  threatsBlocked (currentStats (updateStatsAll toDateString scans stored)) =
  threatsBlocked (currentStats stored) + phishingCount scans.
Proof.
  induction scans as [|[[t1 t2] r] rest IH]; intros stored.
  - unfold phishingCount. simpl. lia.
  - cbn [updateStatsAll]. rewrite IH.
    change (currentStats (Some ?s)) with s.
    rewrite updateStats_threats. unfold phishingCount. simpl.
    destruct (is_phishing r); cbn [List.length]; lia.
Qed.

Lemma updateStatsAll_scans day scans : forall stored,
  Forall (fun s => toDateString (fst (fst s)) = day /\
                   toDateString (snd (fst s)) = day) scans ->
  scans <> [] ->
  scansToday (currentStats (updateStatsAll toDateString scans stored)) =
  countOfDay toDateString day stored + Z.of_nat (List.length scans).
Proof.
  induction scans as [|[[t1 t2] r] rest IH]; intros stored Hall Hne;
    [congruence|].
  apply Forall_cons_iff in Hall. destruct Hall as [[Hd1 Hd2] Hrest].
  simpl in Hd1, Hd2.
  cbn [updateStatsAll].
  destruct rest as [|s rest'].
  - cbn [updateStatsAll]. change (currentStats (Some ?s)) with s.
    rewrite updateStats_scans, Hd1. cbn [List.length]. lia.
  - rewrite IH; [|exact Hrest|discriminate].
    unfold countOfDay at 1. change (currentStats (Some ?s)) with s.
    replace (lastScan (updateStats toDateString t1 t2 r stored))
      with (Some t2) by reflexivity.
    rewrite Hd2, String.eqb_refl, updateStats_scans, Hd1.
    change (List.length ((t1, t2, r) :: s :: rest'))
      with (S (List.length (s :: rest'))).
    lia.
Qed.
End Day.

(** X11: over any sequence of scans handled by the service worker,
    threatsBlocked grows by exactly the number of phishing results, across
    days; when every clock reading of the sequence falls on one day,
    scansToday ends at the count that day started from (the stored count
    if the stored lastScan falls on that day, 0 otherwise) plus the number
    of scans. *)
Theorem stats_accumulate_over_a_day :
  forall (toDateString : Z -> string) (day : string)
         (scans : list (Z * Z * ScanResult)) (stored : option Stats),
    threatsBlocked (currentStats (updateStatsAll toDateString scans stored)) =
      threatsBlocked (currentStats stored) + phishingCount scans /\
    (Forall (fun s => toDateString (fst (fst s)) = day /\
                      toDateString (snd (fst s)) = day) scans ->
     scans <> [] ->
     scansToday (currentStats (updateStatsAll toDateString scans stored)) =
       countOfDay toDateString day stored + Z.of_nat (List.length scans)).
Proof.
  intros toDateString day scans stored. split.
  - apply updateStatsAll_threats.
  - apply updateStatsAll_scans.
Qed.

Lemma stats_accumulate_over_a_day_witness :
  let phishing := mkScanResult None true 1%Q "High" [] in
  let scans := [(100, 101, Scenario.verdict 0); (200, 201, phishing);
                (300, 301, Scenario.verdict 0)] in
  let stored := Some (mkStats 9 4 (Some (-5))) in
  scansToday (currentStats
    (updateStatsAll Scenario.utcDateString scans stored)) = 3 /\
  threatsBlocked (currentStats
    (updateStatsAll Scenario.utcDateString scans stored)) = 5.
Proof.
  intros phishing scans stored.
  destruct (@stats_accumulate_over_a_day Scenario.utcDateString
              (Scenario.utcDateString 0) scans stored) as [Ht Hs].
  split.
  - rewrite Hs; [reflexivity| |discriminate].
    repeat constructor.
  - rewrite Ht. reflexivity.
Defined.

(** X12: the day's reset applies to scansToday only.  On the first scan
    handled after the day changed (or with no stored lastScan) the "Safe
    Sites" tile, scansToday - threatsBlocked, shows 1 minus the threats
    counted so far, this scan included: it is negative as soon as two
    threats were blocked on earlier days. *)
Theorem safe_sites_after_day_change :
  forall (toDateString : Z -> string) (now_today now_stamp : Z)
         (r : ScanResult) (stored : option Stats),
    countOfDay toDateString (toDateString now_today) stored = 0 ->
    let after := updateStats toDateString now_today now_stamp r stored in
    PopupActions.safeSites after =
      1 - threatsBlocked (currentStats stored)
        - (if is_phishing r then 1 else 0) /\
    (2 <= threatsBlocked (currentStats stored) ->
     PopupActions.safeSites after < 0).
Proof.
  intros toDateString now_today now_stamp r stored Hday after.
  unfold PopupActions.safeSites, after.
  rewrite updateStats_scans, updateStats_threats, Hday.
  split; [lia|]. destruct (is_phishing r); lia.
Qed.

Lemma safe_sites_after_day_change_witness :
  let stored := Some (mkStats 12 3 (Some 1000)) in
  countOfDay Scenario.utcDateString
    (Scenario.utcDateString 90000000) stored = 0 /\
  PopupActions.safeSites
    (updateStats Scenario.utcDateString 90000000 90000001
       (Scenario.verdict 0) stored) = -2.
Proof.
  intros stored.
  assert (countOfDay Scenario.utcDateString
            (Scenario.utcDateString 90000000) stored = 0) as H by reflexivity.
  split; [exact H|].
  destruct (@safe_sites_after_day_change Scenario.utcDateString 90000000
              90000001 (Scenario.verdict 0) stored H) as [E _].
  rewrite E. reflexivity.
Defined.

(** X20: a manual scan in the popup stores statistics without lastScan.
    Whatever the HTTP status of the response, handleScan adds one to the
    count and to the threats if the result is phishing, and drops
    lastScan; the next scan handled by the service worker therefore
    restarts scansToday at 1, even on the same day, while threatsBlocked
    carries on.  A request or a parse that throws leaves the state as it
    was. *)
Theorem manual_scan_restarts_day_count :
  forall (toDateString : Z -> string) (u : string) (ok : bool)
         (status now now_today now_stamp : Z) (r r' : ScanResult)
         (st : Popup.State),
    u <> "" ->
    let after := Popup.handleScan u (FetchResponds ok status (JsonValue r))
                   now st in
    let stored := Popup.stats after in
    scansToday stored = scansToday (Popup.stats st) + 1 /\
    threatsBlocked stored =
      threatsBlocked (Popup.stats st) + (if is_phishing r then 1 else 0) /\
    lastScan stored = None /\
    scansToday (updateStats toDateString now_today now_stamp r'
                  (Some stored)) = 1 /\
    threatsBlocked (updateStats toDateString now_today now_stamp r'
                      (Some stored)) =
      threatsBlocked stored + (if is_phishing r' then 1 else 0) /\
    Popup.handleScan u FetchRejects now st = st /\
    Popup.handleScan u (FetchResponds ok status JsonInvalid) now st = st.
Proof.
  intros toDateString u ok status now now_today now_stamp r r' st Hu
         after stored.
  unfold stored, after, Popup.handleScan.
  destruct (String.eqb_spec u "") as [E|_]; [contradiction|].
  cbn. repeat split; destruct (is_phishing r'); try reflexivity; lia.
Qed.

Lemma manual_scan_restarts_day_count_witness :
  let st := Popup.mkState [] (mkStats 4 2 (Some 1000)) in
  let stored :=
    Popup.stats (Popup.handleScan "http://example.com/"
                   (FetchResponds false 500 (JsonValue (Scenario.verdict 0)))
                   2000 st) in
  stored = mkStats 5 2 None /\
  scansToday (updateStats Scenario.utcDateString 3000 3001
                (Scenario.verdict 0) (Some stored)) = 1.
Proof.
  intros st stored.
  destruct (@manual_scan_restarts_day_count Scenario.utcDateString
              "http://example.com/" false 500 2000 3000 3001
              (Scenario.verdict 0) (Scenario.verdict 0) st
              ltac:(discriminate)) as [_ [_ [_ [H _]]]].
  split; [reflexivity | exact H].
Defined.

(** X14: the labels of formatTime.  Seconds are shown below one minute of
    age, and are negative for a timestamp in the future; minutes shown
    lie between 1 and 59, hours between 1 and 23; from 24 hours on the
    date is shown.  The card of the dashboard switches labels at the same
    ages. *)
Theorem formatTime_labels :
  forall (now timestamp : Z),
    let age := now - timestamp in
    match RecentScansHistory.formatTime now timestamp with
    | RecentScansHistory.SecondsAgo n =>
        age < 60000 /\ n = age / 1000 /\ n < 60 /\ (age < 0 -> n < 0) /\
        RecentScansCard.formatTime now timestamp = RecentScansCard.JustNow
    | RecentScansHistory.MinutesAgo n =>
        60000 <= age < 3600000 /\ 1 <= n <= 59 /\
        RecentScansCard.formatTime now timestamp = RecentScansCard.MinAgo n
    | RecentScansHistory.HoursAgo n =>
        3600000 <= age < 86400000 /\ 1 <= n <= 23 /\
        RecentScansCard.formatTime now timestamp = RecentScansCard.HoursAgo n
    | RecentScansHistory.LocaleDate t =>
        86400000 <= age /\ t = timestamp /\
        RecentScansCard.formatTime now timestamp =
          RecentScansCard.LocaleDate timestamp
    end.
Proof.
  intros now timestamp age.
  unfold RecentScansHistory.formatTime, RecentScansCard.formatTime.
  subst age. cbv zeta.
  destruct (Z.ltb_spec ((now - timestamp) / 1000) 60) as [H1|H1];
    [|destruct (Z.ltb_spec ((now - timestamp) / 1000) 3600) as [H2|H2];
      [|destruct (Z.ltb_spec ((now - timestamp) / 1000) 86400) as [H3|H3]]];
    repeat split; try reflexivity; intros; Z.div_mod_to_equations; lia.
Qed.

Lemma length_append (s1 s2 : string) :
  String.length (s1 ++ s2)%string = (String.length s1 + String.length s2)%nat.
Proof. induction s1 as [|c s1 IH]; simpl; [reflexivity | now rewrite IH]. Qed.

Lemma length_substring0 n : forall s,
  String.length (String.substring 0 n s) = Nat.min n (String.length s).
Proof.
  induction n as [|n IH]; intros [|c s]; simpl; try reflexivity.
  now rewrite IH.
Qed.

Lemma substring0_all n : forall s,
  (String.length s <= n)%nat -> String.substring 0 n s = s.
Proof.
  induction n as [|n IH]; intros [|c s]; simpl; intros H;
    try reflexivity; try lia.
  f_equal. apply IH. lia.
Qed.

Lemma prefix_append (p s : string) : String.prefix p (p ++ s)%string = true.
Proof.
  induction p as [|c p IH]; simpl; [now destruct s|].
  destruct (ascii_dec c c); [exact IH | congruence].
Qed.

(** X15: the URL cell of the dashboard table is at most 43 characters
    long; a URL of at most 40 characters is shown whole, a longer one as
    its first 40 characters followed by three dots. *)
Theorem urlCell_is_bounded :
  forall (u : string),
    (String.length (DashboardTable.urlCell u) <= 43)%nat /\
    ((String.length u <= 40)%nat -> DashboardTable.urlCell u = u) /\
    ((40 < String.length u)%nat ->
     String.length (DashboardTable.urlCell u) = 43%nat /\
     String.substring 0 40 (DashboardTable.urlCell u) = String.substring 0 40 u /\
     String.prefix (String.substring 0 40 u) u = true).
Proof.
  intros u. unfold DashboardTable.urlCell.
  destruct (Nat.ltb_spec 40 (String.length u)) as [Hlong|Hshort].
  - assert (String.length (String.substring 0 40 u) = 40%nat) as L40
      by (rewrite length_substring0; lia).
    split; [rewrite length_append, L40; simpl; lia|].
    split; [lia|]. intros _.
    split; [rewrite length_append, L40; reflexivity|].
    remember (String.substring 0 40 u) as p eqn:Ep.
    split.
    + rewrite <- L40. apply String.prefix_correct. apply prefix_append.
    + apply String.prefix_correct. rewrite L40. now rewrite Ep.
  - split; [lia|]. split; [reflexivity | lia].
Qed.

(** X16: the current-page card of the React popup always gets a result
    from the service worker; when the back end fails the card reads "Page
    is Safe" with the threat level Unknown in the neutral colour. *)
Theorem current_page_card_shows_outage_as_safe :
  forall (f : FetchOutcome),
    (exists r, CurrentPageScan.scanCurrentPage f = Some r) /\
    (backend_fails f ->
     CurrentPageScan.scanCurrentPage f = Some safeResult /\
     CurrentPageScan.heading safeResult = "Page is Safe" /\
     CurrentPageScan.getThreatColor (threat_level safeResult)
       = "text-gray-600 bg-gray-50").
Proof.
  intros f. unfold CurrentPageScan.scanCurrentPage. split.
  - unfold scanUrl, try_catch, bind, fetch, json, ret, throw.
    destruct f as [|[] st [r|]]; simpl; eauto.
  - intros Hf. rewrite (ScanCacheProperties.scanUrl_backend_fails _ Hf).
    repeat split.
Qed.

End StatisticsProperties.

(* ================================================================== *)
(** ** What the service worker stores                                   *)
(* ================================================================== *)

Module ServiceWorkerProperties.
Import ServiceWorker.

Lemma scanUrl_returns f : exists r, scanUrl f tt = (tt, Return r).
Proof.
  unfold scanUrl, try_catch, bind, fetch, json, ret, throw.
  destruct f as [|[] st [r|]]; simpl; eauto.
Qed.

(** What one navigation does to the storage. *)
Lemma navigate_cases toDateString n local :
  (isScanned n = false /\ navigate toDateString n local = (local, [])) \/
  (isScanned n = true /\
   exists r, scanUrl (nav_backend n) tt = (tt, Return r) /\
     fst (navigate toDateString n local) =
       {| lastScanResult := Some r;
          recentScans :=
            Some (addRecentScan
                    (mkScanRecord (nav_url n) (is_phishing r) (threat_level r)
                       (confidence r) (now_record (nav_clock n)))
                    (recentScans local));
          stats :=
            Some (updateStats toDateString (now_today (nav_clock n))
                    (now_stamp (nav_clock n)) r (stats local)) |}).
Proof.
  unfold navigate, onCommitted, isScanned.
  destruct (nav_frameId n =? 0); simpl; [|now left].
  destruct (enabled _); simpl; [|now left].
  destruct (String.prefix "chrome://" (nav_url n)
            || String.prefix "chrome-extension://" (nav_url n));
    simpl; [now left|].
  destruct (match nav_whitelist n with
            | Some l => existsb (String.eqb (nav_domain n)) l
            | None => false
            end); simpl; [now left|].
  right. split; [reflexivity|].
  destruct (scanUrl_returns (nav_backend n)) as [r Hr].
  exists r. split; [exact Hr|]. rewrite Hr. reflexivity.
Qed.

Lemma countOfDay_nonneg toDateString day stored :
  (forall s, stored = Some s -> 0 <= scansToday s) ->
  0 <= countOfDay toDateString day stored.
Proof.
  intros H. unfold countOfDay, currentStats.
  destruct stored as [s|]; simpl; [|lia].
  destruct (lastScan s); [|lia].
  destruct (String.eqb _ day); [apply H; reflexivity | lia].
Qed.

Lemma navigate_storageAgrees toDateString n local :
  storageAgrees local -> storageAgrees (fst (navigate toDateString n local)).
Proof.
  intros Hinv.
  destruct (navigate_cases toDateString n local)
    as [[_ ->]|[_ [r [_ ->]]]]; [exact Hinv|].
  unfold storageAgrees in *. cbn [lastScanResult recentScans stats].
  unfold addRecentScan, unshift, slice0. rewrite firstn_cons.
  cbn [scan_is_phishing scan_threat_level scan_confidence].
  split; [reflexivity|]. split; [reflexivity|]. split; [reflexivity|].
  split.
  { cbn [List.length]. apply le_n_S, firstn_le_length. }
  rewrite StatisticsProperties.updateStats_scans,
          StatisticsProperties.updateStats_threats.
  assert (forall s, stats local = Some s ->
                    1 <= scansToday s /\ 0 <= threatsBlocked s) as Hs.
  { intros s Es. rewrite Es in Hinv.
    destruct (lastScanResult local); [|destruct (recentScans local); tauto].
    destruct (recentScans local) as [[|h rest]|]; tauto. }
  split.
  - pose proof (@countOfDay_nonneg toDateString
                  (toDateString (now_today (nav_clock n))) (stats local)) as Hc.
    assert (0 <= countOfDay toDateString
                   (toDateString (now_today (nav_clock n))) (stats local)).
    { apply Hc. intros s Es. destruct (Hs s Es). lia. }
    lia.
  - split; [|discriminate].
    unfold currentStats. destruct (stats local) as [s|] eqn:Es; simpl.
    + destruct (Hs s eq_refl). destruct (is_phishing r); lia.
    + destruct (is_phishing r); lia.
Qed.

Lemma navigateAll_storageAgrees toDateString navs : forall local,
  storageAgrees local -> storageAgrees (navigateAll toDateString navs local).
Proof.
  induction navs as [|n rest IH]; intros local H; [exact H|].
  simpl. apply IH. now apply navigate_storageAgrees.
Qed.

(** X17: a scanned navigation made while the back end is down is stored
    as a safe scan: the last result is the default result, a record with
    is_phishing false, threat level Unknown and confidence 0 heads the
    recent scans, the count of the day grows by one, threatsBlocked stays,
    and no call is made. *)
Theorem outage_is_recorded_as_safe_scan :
  forall (toDateString : Z -> string) (n : Navigation)
         (local : LocalStorage),
    isScanned n = true ->
    backend_fails (nav_backend n) ->
    let after := fst (navigate toDateString n local) in
    snd (navigate toDateString n local) = [] /\
    lastScanResult after = Some safeResult /\
    recentScans after =
      Some (firstn 10
              (mkScanRecord (nav_url n) false "Unknown" 0%Q
                            (now_record (nav_clock n))
               :: match recentScans local with Some l => l | None => [] end)) /\
    (exists s, stats after = Some s /\
       scansToday s =
         countOfDay toDateString (toDateString (now_today (nav_clock n)))
                    (stats local) + 1 /\
       threatsBlocked s = threatsBlocked (currentStats (stats local)) /\
       lastScan s = Some (now_stamp (nav_clock n))).
Proof.
  intros toDateString n local Hscan Hfail after.
  pose proof (ScanCacheProperties.scanUrl_backend_fails _ Hfail) as Hsafe.
  assert (navigate toDateString n local =
    ({| lastScanResult := Some safeResult;
        recentScans :=
          Some (addRecentScan
                  (mkScanRecord (nav_url n) false "Unknown" 0%Q
                                (now_record (nav_clock n)))
                  (recentScans local));
        stats := Some (updateStats toDateString (now_today (nav_clock n))
                         (now_stamp (nav_clock n)) safeResult (stats local)) |},
     [])) as E.
  { revert Hscan. unfold navigate, onCommitted, isScanned.
    destruct (nav_frameId n =? 0); simpl; [|discriminate].
    destruct (enabled _); simpl; [|discriminate].
    destruct (String.prefix "chrome://" (nav_url n)
              || String.prefix "chrome-extension://" (nav_url n));
      simpl; [discriminate|].
    destruct (match nav_whitelist n with
              | Some l => existsb (String.eqb (nav_domain n)) l
              | None => false
              end); simpl; [discriminate|].
    intros _. rewrite Hsafe. reflexivity. }
  unfold after. rewrite E. cbn [fst snd lastScanResult recentScans stats].
  split; [reflexivity|]. split; [reflexivity|]. split; [reflexivity|].
  eexists. split; [reflexivity|].
  rewrite StatisticsProperties.updateStats_scans,
          StatisticsProperties.updateStats_threats.
  split; [reflexivity|]. split; [simpl; lia | reflexivity].
Qed.

Lemma outage_is_recorded_as_safe_scan_witness :
  let n := mkNavigation 0 None None "http://example.com/" "example.com"
             FetchRejects (mkClock 10 11 12) in
  isScanned n = true /\
  fst (navigate Scenario.utcDateString n (mkLocal None None None)) =
    mkLocal (Some safeResult)
      (Some [mkScanRecord "http://example.com/" false "Unknown" 0%Q 10])
      (Some (mkStats 1 0 (Some 12))).
Proof.
  intros n.
  assert (isScanned n = true) as H by reflexivity.
  split; [exact H|].
  destruct (@outage_is_recorded_as_safe_scan Scenario.utcDateString n
              (mkLocal None None None) H I) as [_ [H1 [H2 _]]].
  reflexivity.
Defined.

(** X18: the three keys the service worker writes stay in agreement.
    Starting from an empty storage, which is also what clearCache of the
    popup leaves, after any sequence of navigations either nothing is
    stored or the last result, the recent scans and the statistics are all
    present: the list holds at most 10 scans and is headed by the scan of
    the last result, the count of the day is at least 1, threatsBlocked is
    not negative and lastScan is set. *)
Theorem worker_storage_agrees :
  forall (toDateString : Z -> string) (navs : list Navigation)
         (st : Popup.State) (local : LocalStorage),
    snd (PopupActions.clearCache st local) = mkLocal None None None /\
    storageAgrees
      (navigateAll toDateString navs
         (snd (PopupActions.clearCache st local))).
Proof.
  intros toDateString navs st local. split; [reflexivity|].
  apply navigateAll_storageAgrees. exact I.
Qed.

(** X13: the history view of the popup shows the first five entries of
    the list in storage, when it is opened and after every change of
    that list, and nothing when no list is stored or the list is
    removed; it never shows more than five.  After a navigation that the
    service worker scans, the view shows that scan first, followed by
    the first four entries of the list stored before; a navigation that
    is not scanned leaves what a newly opened view shows.  After a
    manual scan in the popup the view shows that scan first, followed by
    the first four entries of the list the popup held, whatever the
    storage held. *)
Theorem history_shows_first_five_stored :
  forall (toDateString : Z -> string) (n : Navigation) (local : LocalStorage)
         (scan : ScanRecord) (held view : list ScanRecord)
         (stored : option (list ScanRecord)),
    let before := match recentScans local with Some l => l | None => [] end in
    let after := recentScans (fst (navigate toDateString n local)) in
    RecentScansHistory.shown stored =
      firstn 5 (match stored with Some l => l | None => [] end) /\
    RecentScansHistory.handleStorageChange (Some stored) view =
      RecentScansHistory.shown stored /\
    RecentScansHistory.handleStorageChange None view = view /\
    (List.length (RecentScansHistory.shown stored) <= 5)%nat /\
    (isScanned n = true ->
     exists r, scanUrl (nav_backend n) tt = (tt, Return r) /\
       RecentScansHistory.handleStorageChange (Some after) view =
         mkScanRecord (nav_url n) (is_phishing r) (threat_level r)
                      (confidence r) (now_record (nav_clock n))
         :: firstn 4 before) /\
    (isScanned n = false ->
     RecentScansHistory.shown after =
       RecentScansHistory.shown (recentScans local)) /\
    RecentScansHistory.handleStorageChange
      (Some (Some (Popup.updatedScans scan held))) view =
      scan :: firstn 4 held.
Proof.
  intros toDateString n local scan held view stored before after.
  assert (RecentScansHistory.shown stored =
          firstn 5 (match stored with Some l => l | None => [] end)) as Hshown.
  { destruct stored as [l|]; reflexivity. }
  split; [exact Hshown|].
  split; [destruct stored as [l|]; reflexivity|].
  split; [reflexivity|].
  split; [rewrite Hshown; apply firstn_le_length|].
  subst after.
  destruct (navigate_cases toDateString n local)
    as [[Hno ->]|[Hyes [r [Hr ->]]]].
  - split; [intros H; congruence|]. split; [reflexivity|].
    unfold RecentScansHistory.handleStorageChange, Popup.updatedScans, slice0.
    rewrite firstn_firstn. reflexivity.
  - split.
    + intros _. exists r. split; [exact Hr|].
      cbn [recentScans RecentScansHistory.handleStorageChange].
      unfold addRecentScan, unshift, slice0.
      rewrite firstn_firstn. reflexivity.
    + split; [intros H; congruence|].
      unfold RecentScansHistory.handleStorageChange, Popup.updatedScans,
        slice0.
      rewrite firstn_firstn. reflexivity.
Qed.

End ServiceWorkerProperties.
